(** * Disaster response simulation: environment engine, event derivation
      and reactive finite-state policy.

    Shallow embedding of [environment.py] and [lab3_goal_event_fsm_agent.py].

    Conventions of the embedding:
    - Python floats are rationals ([Q]); rounding and NaN are not modelled.
    - Python ints are [Z]; the event counter is a [nat].
    - The ambient random generator and the wall clock form the [World]:
      three oracles read in sequence.  [draws] lists the values of
      [random.random()] ([0 <= u < 1] for a well-formed oracle), [samples]
      the integers accepted by the rejection sampling of [_randbelow], on
      which [random.choice] and [random.randint] rest, and [clock] the
      readings of [datetime.now()].
    - Methods are state transformers over the object they belong to and the
      world; a failing dictionary or list access ([KeyError], [IndexError],
      [ValueError]) is [None].
    - Formatted text (f-strings with float formats) is kept structured. *)

From Stdlib Require Import QArith Qminmax Lqa ZArith.
From Stdlib Require Import Ascii String DecimalString DecimalNat.
From stdpp Require Import gmap strings list.

Set Warnings "-clear-no-such-hyp".

Local Close Scope Q_scope.
Local Open Scope Z_scope.
Local Open Scope nat_scope.
Local Open Scope string_scope.
Local Open Scope list_scope.

(** ** The world: random draws and clock readings *)

Definition Time := Z.

Record World := mkWorld {
  draws : nat -> Q;      (* successive values of random.random() *)
  rng_pos : nat;         (* index of the next draw *)
  samples : nat -> Z;    (* successive samples accepted by _randbelow *)
  smp_pos : nat;         (* index of the next sample *)
  clock : nat -> Time;   (* successive values of datetime.now() *)
  clk_pos : nat          (* index of the next clock reading *)
}.

(** A well-formed random source yields unit draws in [0,1). *)
Definition unit_draws (w : World) : Prop :=
  forall i, (0 <= draws w i)%Q /\ (draws w i < 1)%Q.

(** ** State-and-failure monad over an object state [O] and the world *)

Definition St (O A : Type) : Type := O -> World -> option (A * O * World).

Global Instance St_ret {O} : MRet (St O) :=
  fun A (a : A) s w => Some (a, s, w).

Global Instance St_bind {O} : MBind (St O) :=
  fun A B (k : A -> St O B) (m : St O A) s w =>
    match m s w with
    | Some (a, s', w') => k a s' w'
    | None => None
    end.

Definition raise {O A} : St O A := fun _ _ => None.

Definition get {O} : St O O := fun s w => Some (s, s, w).
Definition put {O} (s : O) : St O unit := fun _ w => Some (tt, s, w).
Definition modify {O} (f : O -> O) : St O unit := fun s w => Some (tt, f s, w).

Definition of_option {O A} (o : option A) : St O A :=
  match o with Some a => mret a | None => raise end.

(** [for x in xs: body(x)] *)
Fixpoint for_each {O A} (xs : list A) (body : A -> St O unit) : St O unit :=
  match xs with
  | [] => mret tt
  | x :: xs' => body x ;; for_each xs' body
  end.

(** [[f(x) for x in xs]] with an effectful [f] *)
Fixpoint map_st {O A B} (f : A -> St O B) (xs : list A) : St O (list B) :=
  match xs with
  | [] => mret []
  | x :: xs' => y ← f x; ys ← map_st f xs'; mret (y :: ys)
  end.

(** Run a computation on a sub-object reached through a lens. *)
Definition zoom {O T A} (proj : O -> T) (upd : T -> O -> O) (m : St T A) : St O A :=
  fun s w => match m (proj s) w with
             | Some (a, t', w') => Some (a, upd t' s, w')
             | None => None
             end.

(** ** The [random] module and [datetime.now()] *)

Definition random_random {O} : St O Q :=
  fun s w => Some (draws w (rng_pos w), s,
                   mkWorld (draws w) (S (rng_pos w)) (samples w) (smp_pos w)
                           (clock w) (clk_pos w)).

(** [random.uniform(a, b)] is [a + (b - a) * random()]. *)
Definition random_uniform {O} (a b : Q) : St O Q :=
  u ← random_random; mret (a + (b - a) * u)%Q.

(** [_randbelow(n)] draws bits until the sample is below [n] and returns
    it; the oracle lists the accepted samples, reduced modulo [n] so that
    every oracle is admissible.  Without a positive [n] the callers raise
    ([IndexError] for an empty sequence, [ValueError] for an empty range). *)
Definition randbelow {O} (n : Z) : St O Z :=
  fun s w =>
    if (0 <? n)%Z
    then Some ((samples w (smp_pos w) mod n)%Z, s,
               mkWorld (draws w) (rng_pos w) (samples w) (S (smp_pos w))
                       (clock w) (clk_pos w))
    else None.

(** [random.randint(a, b)] is [a + _randbelow(b - a + 1)]. *)
Definition random_randint {O} (a b : Z) : St O Z :=
  k ← randbelow (b - a + 1)%Z; mret (a + k)%Z.

(** [random.choice(seq)] is [seq[_randbelow(len(seq))]]. *)
Definition random_choice {O A} (seq : list A) : St O A :=
  k ← randbelow (Z.of_nat (length seq));
  if (k <? 0)%Z then raise else of_option (seq !! Z.to_nat k).

Definition datetime_now {O} : St O Time :=
  fun s w => Some (clock w (clk_pos w), s,
                   mkWorld (draws w) (rng_pos w) (samples w) (smp_pos w)
                           (clock w) (S (clk_pos w))).

(** [max(a, b)] keeps [a] unless [b] is strictly larger; [min(a, b)] keeps
    [a] unless [b] is strictly smaller.  These are [Qmax] and [Qmin]. *)
Definition py_max (a b : Q) : Q := Qmax a b.
Definition py_min (a b : Q) : Q := Qmin a b.

(** ** Insertion-ordered dictionaries with string keys *)

Module PyDict.
Definition t (V : Type) := list (string * V).

Fixpoint lookup {V} (k : string) (d : t V) : option V :=
  match d with
  | [] => None
  | (k', v) :: d' => if String.eqb k k' then Some v else lookup k d'
  end.

(** [d[k] = v]: overwrite in place, or append a new key. *)
Fixpoint set {V} (k : string) (v : V) (d : t V) : t V :=
  match d with
  | [] => [(k, v)]
  | (k', v') :: d' =>
      if String.eqb k k' then (k', v) :: d' else (k', v') :: set k v d'
  end.

Definition keys {V} (d : t V) : list string := map fst d.
Definition values {V} (d : t V) : list V := map snd d.
End PyDict.

(** ** environment.py: data model *)

Inductive DisasterType := FLOOD | EARTHQUAKE | FIRE | DROUGHT | STORM.

Inductive Severity := LOW | MODERATE | HIGH | CRITICAL | CATASTROPHIC.

Definition list_DisasterType : list DisasterType :=
  [FLOOD; EARTHQUAKE; FIRE; DROUGHT; STORM].

Definition list_Severity : list Severity :=
  [LOW; MODERATE; HIGH; CRITICAL; CATASTROPHIC].

(** [severity.value] *)
Definition severity_value (s : Severity) : Z :=
  match s with
  | LOW => 1 | MODERATE => 2 | HIGH => 3 | CRITICAL => 4 | CATASTROPHIC => 5
  end%Z.

Record Location := mkLocation {
  latitude : Q;
  longitude : Q;
  name : string
}.

Record DisasterEvent := mkDisasterEvent {
  event_id : string;
  disaster_type : DisasterType;
  location : Location;
  severity : Severity;
  timestamp : Time;
  affected_area : Q;
  casualties : Z;
  infrastructure_damage : Q;
  resources_needed : gmap string Z
}.

(** The inner dictionary of [current_conditions], with its fixed keys. *)
Record Condition := mkCondition {
  temperature : Q;
  humidity : Q;
  wind_speed : Q;
  air_quality : Q;
  seismic_activity : Q;
  water_level : Q;
  smoke_detected : bool
}.

Record EnvironmentPercept := mkPercept {
  p_timestamp : Time;
  p_location : Location;
  p_temperature : Q;
  p_humidity : Q;
  p_wind_speed : Q;
  p_air_quality : Q;
  p_seismic_activity : Q;
  p_water_level : Q;
  p_smoke_detected : bool;
  p_active_disasters : list DisasterEvent
}.

Record DisasterEnvironment := mkEnv {
  event_counter : nat;
  active_disasters : list DisasterEvent;
  locations : list Location;
  current_conditions : PyDict.t Condition
}.

(** In-place stores into the inner dictionary: [cond['temperature'] = v], ... *)
Definition set_temperature (v : Q) (c : Condition) : Condition :=
  mkCondition v (humidity c) (wind_speed c) (air_quality c)
              (seismic_activity c) (water_level c) (smoke_detected c).
Definition set_humidity (v : Q) (c : Condition) : Condition :=
  mkCondition (temperature c) v (wind_speed c) (air_quality c)
              (seismic_activity c) (water_level c) (smoke_detected c).
Definition set_wind_speed (v : Q) (c : Condition) : Condition :=
  mkCondition (temperature c) (humidity c) v (air_quality c)
              (seismic_activity c) (water_level c) (smoke_detected c).
Definition set_air_quality (v : Q) (c : Condition) : Condition :=
  mkCondition (temperature c) (humidity c) (wind_speed c) v
              (seismic_activity c) (water_level c) (smoke_detected c).
Definition set_seismic_activity (v : Q) (c : Condition) : Condition :=
  mkCondition (temperature c) (humidity c) (wind_speed c) (air_quality c)
              v (water_level c) (smoke_detected c).
Definition set_water_level (v : Q) (c : Condition) : Condition :=
  mkCondition (temperature c) (humidity c) (wind_speed c) (air_quality c)
              (seismic_activity c) v (smoke_detected c).
Definition set_smoke_detected (v : bool) (c : Condition) : Condition :=
  mkCondition (temperature c) (humidity c) (wind_speed c) (air_quality c)
              (seismic_activity c) (water_level c) v.

(** Field stores of the environment object. *)
Definition set_event_counter (n : nat) (e : DisasterEnvironment) :=
  mkEnv n (active_disasters e) (locations e) (current_conditions e).
Definition set_active_disasters (l : list DisasterEvent) (e : DisasterEnvironment) :=
  mkEnv (event_counter e) l (locations e) (current_conditions e).
Definition set_current_conditions (d : PyDict.t Condition) (e : DisasterEnvironment) :=
  mkEnv (event_counter e) (active_disasters e) (locations e) d.

(** ** environment.py: DisasterEnvironment *)

Definition _initialize_locations : list Location :=
  [ mkLocation 5.6037 (-0.1870) "Accra";
    mkLocation 6.6944 (-1.5547) "Kumasi";
    mkLocation 5.6260 0.0091 "Tema";
    mkLocation 9.2619 (-0.8406) "Tamale";
    mkLocation 5.1143 (-1.2440) "Cape Coast" ]%Q.

(** One iteration of the loop of [_initialize_conditions]. *)
Definition initial_condition {O} : St O Condition :=
  t ← random_uniform 25 35;
  h ← random_uniform 60 90;
  ws ← random_uniform 0 30;
  aq ← random_uniform 50 150;
  mret (mkCondition t h ws aq 0 0 false).

Fixpoint _initialize_conditions_loop {O} (locs : list Location)
    (conditions : PyDict.t Condition) : St O (PyDict.t Condition) :=
  match locs with
  | [] => mret conditions
  | location :: locs' =>
      c ← initial_condition;
      _initialize_conditions_loop locs' (PyDict.set (name location) c conditions)
  end.

Definition _initialize_conditions : St DisasterEnvironment (PyDict.t Condition) :=
  self ← get;
  _initialize_conditions_loop (locations self) [].

(** [DisasterEnvironment()] *)
Definition DisasterEnvironment__init__ (w : World)
  : option (DisasterEnvironment * World) :=
  let self := mkEnv 0 [] _initialize_locations [] in
  match _initialize_conditions self w with
  | Some (conditions, self, w') => Some (set_current_conditions conditions self, w')
  | None => None
  end.

(** The body of the first loop of [update_environment], on one inner
    dictionary [cond], which it mutates in place. *)
Definition drift {O} (cond : Condition) : St O Condition :=
  d ← random_uniform (-2) 2;
  let cond := set_temperature (temperature cond + d)%Q cond in
  d ← random_uniform (-5) 5;
  let cond := set_humidity (humidity cond + d)%Q cond in
  d ← random_uniform (-5) 5;
  let cond := set_wind_speed (py_max 0 (wind_speed cond + d))%Q cond in
  d ← random_uniform (-10) 10;
  let cond := set_air_quality (air_quality cond + d)%Q cond in
  (* Clip values to realistic ranges *)
  let cond := set_temperature (py_max 20 (py_min 45 (temperature cond))) cond in
  let cond := set_humidity (py_max 30 (py_min 100 (humidity cond))) cond in
  let cond := set_air_quality (py_max 0 (py_min 500 (air_quality cond))) cond in
  mret cond.

(** The kind-specific side effects of a spawn on [cond]. *)
Definition spawn_effects {O} (disaster_type : DisasterType) (cond : Condition)
  : St O Condition :=
  match disaster_type with
  | FLOOD =>
      wl ← random_uniform 1 5;
      let cond := set_water_level wl cond in
      mret (set_humidity (py_min 100 (humidity cond + 20))%Q cond)
  | FIRE =>
      let cond := set_smoke_detected true cond in
      d ← random_uniform 10 30;
      let cond := set_temperature (temperature cond + d)%Q cond in
      d ← random_uniform 100 300;
      mret (set_air_quality (air_quality cond + d)%Q cond)
  | EARTHQUAKE =>
      sa ← random_uniform 3 8;
      mret (set_seismic_activity sa cond)
  | DROUGHT =>
      d ← random_uniform 5 15;
      let cond := set_temperature (temperature cond + d)%Q cond in
      mret (set_humidity (py_max 20 (humidity cond - 30))%Q cond)
  | STORM =>
      ws ← random_uniform 50 150;
      let cond := set_wind_speed ws cond in
      mret (set_humidity (py_min 100 (humidity cond + 15))%Q cond)
  end.

(** [n * "0"] *)
Fixpoint zeros (n : nat) : string :=
  match n with
  | O => ""
  | S n' => String "0"%char (zeros n')
  end.

(** [f"{n:04d}"]: decimal digits, zero-padded on the left to width 4. *)
Definition format_04d (n : nat) : string :=
  let digits := NilEmpty.string_of_uint (Nat.to_uint n) in
  zeros (4 - String.length digits) ++ digits.

(** [f"D{self.event_counter:04d}"] *)
Definition format_event_id (n : nat) : string := String "D"%char (format_04d n).

Definition _generate_disaster : St DisasterEnvironment DisasterEvent :=
  modify (fun self => set_event_counter (event_counter self + 1) self) ;;
  disaster_type ← random_choice list_DisasterType;
  self ← get;
  location ← random_choice (locations self);
  severity ← random_choice list_Severity;
  (* Update environmental conditions based on disaster type *)
  cond ← of_option (PyDict.lookup (name location) (current_conditions self));
  cond ← spawn_effects disaster_type cond;
  modify (fun self => set_current_conditions
            (PyDict.set (name location) cond (current_conditions self)) self) ;;
  (* Create disaster event *)
  self ← get;
  now ← datetime_now;
  area ← random_uniform 0.5 50;
  cas ← random_randint 0 (severity_value severity * 50);
  dmg ← random_uniform (inject_Z (severity_value severity * 5))
                       (inject_Z (severity_value severity * 20));
  medical_kits ← random_randint 10 100;
  food_packages ← random_randint 50 500;
  water_bottles ← random_randint 100 1000;
  rescue_teams ← random_randint 2 20;
  let event :=
    mkDisasterEvent (format_event_id (event_counter self)) disaster_type location
      severity now area cas dmg
      (<["rescue_teams" := rescue_teams]>
         (<["water_bottles" := water_bottles]>
            (<["food_packages" := food_packages]>
               (<["medical_kits" := medical_kits]> ∅)))) in
  modify (fun self => set_active_disasters (active_disasters self ++ [event]) self) ;;
  mret event.

(** Dataclass equality ([__eq__] generated by [@dataclass]): field by field;
    floats compare by value. *)
Definition DisasterType_eqb (a b : DisasterType) : bool :=
  match a, b with
  | FLOOD, FLOOD | EARTHQUAKE, EARTHQUAKE | FIRE, FIRE
  | DROUGHT, DROUGHT | STORM, STORM => true
  | _, _ => false
  end.

Definition Severity_eqb (a b : Severity) : bool :=
  (severity_value a =? severity_value b)%Z.

Definition Location_eqb (a b : Location) : bool :=
  Qeq_bool (latitude a) (latitude b) && Qeq_bool (longitude a) (longitude b)
  && String.eqb (name a) (name b).

Definition DisasterEvent_eqb (a b : DisasterEvent) : bool :=
  String.eqb (event_id a) (event_id b)
  && DisasterType_eqb (disaster_type a) (disaster_type b)
  && Location_eqb (location a) (location b)
  && Severity_eqb (severity a) (severity b)
  && (timestamp a =? timestamp b)%Z
  && Qeq_bool (affected_area a) (affected_area b)
  && (casualties a =? casualties b)%Z
  && Qeq_bool (infrastructure_damage a) (infrastructure_damage b)
  && bool_decide (resources_needed a = resources_needed b).

(** [lst.remove(x)]: drop the first element equal to [x]; [ValueError]
    when there is none. *)
Fixpoint list_remove (x : DisasterEvent) (lst : list DisasterEvent)
  : option (list DisasterEvent) :=
  match lst with
  | [] => None
  | y :: lst' =>
      if DisasterEvent_eqb y x then Some lst'
      else match list_remove x lst' with
           | Some r => Some (y :: r)
           | None => None
           end
  end.

(** The reset applied to [cond] when [disaster] resolves. *)
Definition resolve_effects (disaster : DisasterEvent) (cond : Condition) : Condition :=
  match disaster_type disaster with
  | FLOOD => set_water_level 0 cond
  | FIRE => set_smoke_detected false cond
  | EARTHQUAKE => set_seismic_activity 0 cond
  | DROUGHT | STORM => cond
  end.

(** First loop of [_update_disasters], over a snapshot of the catalog. *)
Fixpoint _update_disasters_loop (disasters disasters_to_remove : list DisasterEvent)
  : St DisasterEnvironment (list DisasterEvent) :=
  match disasters with
  | [] => mret disasters_to_remove
  | disaster :: rest =>
      u ← random_random;
      (* 20% chance a disaster resolves *)
      if Qlt_le_dec u 0.20 then
        self ← get;
        cond ← of_option (PyDict.lookup (name (location disaster))
                                        (current_conditions self));
        modify (fun self => set_current_conditions
                  (PyDict.set (name (location disaster))
                              (resolve_effects disaster cond)
                              (current_conditions self)) self) ;;
        _update_disasters_loop rest (disasters_to_remove ++ [disaster])
      else _update_disasters_loop rest disasters_to_remove
  end.

Definition _update_disasters : St DisasterEnvironment unit :=
  self ← get;
  disasters_to_remove ← _update_disasters_loop (active_disasters self) [];
  for_each disasters_to_remove (fun disaster =>
    self ← get;
    remaining ← of_option (list_remove disaster (active_disasters self));
    modify (set_active_disasters remaining)).

Definition update_environment : St DisasterEnvironment unit :=
  (* Update base conditions *)
  self ← get;
  conditions ← map_st (fun entry : string * Condition =>
                         cond ← drift (snd entry); mret (fst entry, cond))
                      (current_conditions self);
  modify (set_current_conditions conditions) ;;
  (* Randomly generate new disasters *)
  u ← random_random;
  (if Qlt_le_dec u 0.80 then _generate_disaster ;; mret tt else mret tt) ;;
  (* Update existing disasters *)
  _update_disasters.

Definition sense (loc : Location) : St DisasterEnvironment EnvironmentPercept :=
  self ← get;
  cond ← of_option (PyDict.lookup (name loc) (current_conditions self));
  let local_disasters :=
    List.filter (fun d => String.eqb (name (location d)) (name loc))
                (active_disasters self) in
  now ← datetime_now;
  mret (mkPercept now loc (temperature cond) (humidity cond) (wind_speed cond)
          (air_quality cond) (seismic_activity cond) (water_level cond)
          (smoke_detected cond) local_disasters).

Definition get_all_percepts : St DisasterEnvironment (list EnvironmentPercept) :=
  self ← get;
  map_st sense (locations self).

(** ** lab3_goal_event_fsm_agent.py: data model *)

Inductive ResponseState := MONITORING | ASSESSING | DISPATCHING | RECOVERY.

(** [state.name] *)
Definition state_name (s : ResponseState) : string :=
  match s with
  | MONITORING => "MONITORING"
  | ASSESSING => "ASSESSING"
  | DISPATCHING => "DISPATCHING"
  | RECOVERY => "RECOVERY"
  end.

Definition ResponseState_eqb (a b : ResponseState) : bool :=
  match a, b with
  | MONITORING, MONITORING | ASSESSING, ASSESSING
  | DISPATCHING, DISPATCHING | RECOVERY, RECOVERY => true
  | _, _ => false
  end.

Record AgentGoals := mkGoals {
  rescue_people : string;
  stabilize_infrastructure : string;
  optimize_resources : string
}.

Definition default_goals : AgentGoals :=
  mkGoals "Minimize casualties through rapid rescue dispatch"
          "Reduce infrastructure damage escalation"
          "Allocate rescue resources efficiently".

(** The ["details"] text of a derived event, before formatting. *)
Inductive Details :=
| DetailTemperature (t : Q)
| DetailWaterLevel (wl : Q)
| DetailDisaster (ty : DisasterType) (sev : Severity)
| DetailSeverity (sev : Severity)
| DetailText (s : string).

(** A derived-event dictionary; the key ["disaster"] may be absent. *)
Record DerivedEvent := mkEvent {
  ev_type : string;
  ev_location : string;
  ev_disaster : option DisasterEvent;
  ev_details : Details
}.

(** An entry of [transition_history]. *)
Record TransitionRecord := mkTransition {
  tr_from : string;
  tr_to : string;
  tr_reason : string;
  tr_time : Time
}.

(** The message of a trace line, before formatting. *)
Inductive Message :=
| MsgText (s : string)
| MsgState (old_name new_name reason : string)
| MsgEvent (ty loc : string) (details : Details)
| MsgAssessment (ty : DisasterType) (loc : string) (sev : Severity)
| MsgDispatch (teams medical : Z) (loc : string)
| MsgGoal (goal : string)
| MsgInitialState (state : string)
| MsgCycle (cycle cycles : Z).

Record LogEntry := mkLogEntry {
  log_time : Time;
  log_agent : string;
  log_message : Message
}.

Record GoalReactiveResponseAgent := mkAgent {
  agent_id : string;
  environment : DisasterEnvironment;
  state : ResponseState;
  goals : AgentGoals;
  trace : list LogEntry;
  transition_history : list TransitionRecord;
  last_handled_event_ids : gset string
}.

Definition set_environment (e : DisasterEnvironment) (a : GoalReactiveResponseAgent) :=
  mkAgent (agent_id a) e (state a) (goals a) (trace a) (transition_history a)
          (last_handled_event_ids a).
Definition set_state (s : ResponseState) (a : GoalReactiveResponseAgent) :=
  mkAgent (agent_id a) (environment a) s (goals a) (trace a) (transition_history a)
          (last_handled_event_ids a).
Definition set_trace (t : list LogEntry) (a : GoalReactiveResponseAgent) :=
  mkAgent (agent_id a) (environment a) (state a) (goals a) t (transition_history a)
          (last_handled_event_ids a).
Definition set_transition_history (h : list TransitionRecord)
    (a : GoalReactiveResponseAgent) :=
  mkAgent (agent_id a) (environment a) (state a) (goals a) (trace a) h
          (last_handled_event_ids a).
Definition set_last_handled_event_ids (s : gset string)
    (a : GoalReactiveResponseAgent) :=
  mkAgent (agent_id a) (environment a) (state a) (goals a) (trace a)
          (transition_history a) s.

(** ** lab3_goal_event_fsm_agent.py: GoalReactiveResponseAgent *)

(** [GoalReactiveResponseAgent(agent_id, environment)]; creating the log
    directory is left out. *)
Definition GoalReactiveResponseAgent__init__ (agent_id : string)
    (environment : DisasterEnvironment) : GoalReactiveResponseAgent :=
  mkAgent agent_id environment MONITORING default_goals [] [] ∅.

Definition _timestamp : St GoalReactiveResponseAgent Time := datetime_now.

Definition _log (message : Message) : St GoalReactiveResponseAgent unit :=
  now ← _timestamp;
  modify (fun self => set_trace
            (trace self ++ [mkLogEntry now (agent_id self) message]) self).

Definition _switch_state (new_state : ResponseState) (reason : string)
  : St GoalReactiveResponseAgent unit :=
  self ← get;
  let old_state := state self in
  if ResponseState_eqb old_state new_state then mret tt
  else
    modify (set_state new_state) ;;
    now ← _timestamp;
    modify (fun self => set_transition_history
              (transition_history self ++
                 [mkTransition (state_name old_state) (state_name new_state)
                               reason now]) self) ;;
    _log (MsgState (state_name old_state) (state_name new_state) reason).

(** The body of the inner loop of [_derive_events] for one disaster of a
    percept at [loc]; [seen] is [self.last_handled_event_ids]. *)
Definition derive_disaster (loc : string) (disaster : DisasterEvent)
    (acc : list DerivedEvent * gset string) : list DerivedEvent * gset string :=
  let '(derived_events, seen) := acc in
  let '(derived_events, seen) :=
    if bool_decide (event_id disaster ∈ seen) then (derived_events, seen)
    else (derived_events ++
            [mkEvent "DISASTER_DETECTED" loc (Some disaster)
               (DetailDisaster (disaster_type disaster) (severity disaster))],
          seen ∪ {[event_id disaster]}) in
  let derived_events :=
    if (severity_value CRITICAL <=? severity_value (severity disaster))%Z
    then derived_events ++
           [mkEvent "SEVERITY_ESCALATION" loc (Some disaster)
              (DetailSeverity (severity disaster))]
    else derived_events in
  let derived_events :=
    if (12 <=? default 0%Z (resources_needed disaster !! "rescue_teams"))%Z
    then derived_events ++
           [mkEvent "RESOURCE_SHORTAGE" loc (Some disaster)
              (DetailText "High rescue-team requirement")]
    else derived_events in
  (derived_events, seen).

(** The body of the outer loop of [_derive_events] for one percept. *)
Definition derive_percept (percept : EnvironmentPercept)
    (acc : list DerivedEvent * gset string) : list DerivedEvent * gset string :=
  let '(derived_events, seen) := acc in
  let loc := name (p_location percept) in
  let derived_events :=
    if Qle_bool 42 (p_temperature percept)
    then derived_events ++
           [mkEvent "TEMP_SPIKE" loc None (DetailTemperature (p_temperature percept))]
    else derived_events in
  let derived_events :=
    if Qle_bool 1.5 (p_water_level percept)
    then derived_events ++
           [mkEvent "WATER_RISE" loc None (DetailWaterLevel (p_water_level percept))]
    else derived_events in
  fold_left (fun acc disaster => derive_disaster loc disaster acc)
            (p_active_disasters percept) (derived_events, seen).

(** The outer loop of [_derive_events], from an empty [derived_events]. *)
Definition derive_loop (percepts : list EnvironmentPercept) (seen : gset string)
  : list DerivedEvent * gset string :=
  fold_left (fun acc percept => derive_percept percept acc) percepts ([], seen).

Definition _derive_events (percepts : list EnvironmentPercept)
  : St GoalReactiveResponseAgent (list DerivedEvent) :=
  self ← get;
  let '(derived_events, seen) := derive_loop percepts (last_handled_event_ids self) in
  modify (set_last_handled_event_ids seen) ;;
  mret derived_events.

(** The key of [_prioritize_disaster] and the tuple comparison [a > b]. *)
Definition priority_key (disaster : DisasterEvent) : Z * Z * Q :=
  (severity_value (severity disaster), casualties disaster,
   infrastructure_damage disaster).

Definition key_gtb (a b : Z * Z * Q) : bool :=
  let '(a1, a2, a3) := a in
  let '(b1, b2, b3) := b in
  if negb (a1 =? b1)%Z then (b1 <? a1)%Z
  else if negb (a2 =? b2)%Z then (b2 <? a2)%Z
  else if negb (Qeq_bool a3 b3) then negb (Qle_bool a3 b3)
  else false.

(** The scan of [max(iterable, key=...)]: keep the current maximum unless
    the next item's key is strictly greater. *)
Fixpoint max_scan (items : list DisasterEvent) (maxitem : DisasterEvent)
  : DisasterEvent :=
  match items with
  | [] => maxitem
  | item :: rest =>
      if key_gtb (priority_key item) (priority_key maxitem)
      then max_scan rest item
      else max_scan rest maxitem
  end.

(** [[event["disaster"] for event in events if "disaster" in event]] *)
Definition event_disasters (events : list DerivedEvent) : list DisasterEvent :=
  omap ev_disaster events.

Definition _prioritize_disaster (events : list DerivedEvent) : option DisasterEvent :=
  match event_disasters events with
  | [] => None
  | first :: rest => Some (max_scan rest first)
  end.

(** [if cond: body] *)
Definition when {O} (cond : bool) (body : St O unit) : St O unit :=
  if cond then body else mret tt.

Definition resource (key : string) (disaster : DisasterEvent) : Z :=
  default 0%Z (resources_needed disaster !! key).

Definition _react (events : list DerivedEvent) : St GoalReactiveResponseAgent unit :=
  match events with
  | [] =>
      self ← get;
      when (negb (ResponseState_eqb (state self) MONITORING))
           (_switch_state MONITORING "No active trigger events") ;;
      _log (MsgText "Action: Continue periodic monitoring")
  | _ =>
      for_each events (fun event =>
        _log (MsgEvent (ev_type event) (ev_location event) (ev_details event))) ;;
      let priority_disaster := _prioritize_disaster events in
      self ← get;
      when (ResponseState_eqb (state self) MONITORING)
           (_switch_state ASSESSING "Disaster-related event detected") ;;
      self ← get;
      when (ResponseState_eqb (state self) ASSESSING)
           (match priority_disaster with
            | Some d => _log (MsgAssessment (disaster_type d) (name (location d))
                                            (severity d))
            | None => mret tt
            end ;;
            _switch_state DISPATCHING "Assessment complete") ;;
      self ← get;
      when (ResponseState_eqb (state self) DISPATCHING)
           (match priority_disaster with
            | Some d =>
                let teams := resource "rescue_teams" d in
                let medical := resource "medical_kits" d in
                _log (MsgDispatch teams medical (name (location d))) ;;
                _log (MsgGoal (rescue_people (goals self))) ;;
                _log (MsgGoal (optimize_resources (goals self)))
            | None => mret tt
            end ;;
            _switch_state RECOVERY "Initial dispatch actions completed") ;;
      self ← get;
      when (ResponseState_eqb (state self) RECOVERY)
           (match priority_disaster with
            | Some d =>
                if (severity_value (severity d) <=? severity_value MODERATE)%Z then
                  _log (MsgText "Recovery: Situation is stabilizing; downgrade response level") ;;
                  _switch_state MONITORING "Disaster impact under control"
                else
                  _log (MsgText "Recovery: Continue containment and infrastructure stabilization") ;;
                  _log (MsgGoal (stabilize_infrastructure (goals self))) ;;
                  _switch_state MONITORING "Return to monitor after recovery cycle"
            | None => mret tt
            end)
  end.

(** [_save_trace] writes the trace file; of it only the clock reading of
    the header is kept. *)
Definition _save_trace : St GoalReactiveResponseAgent unit :=
  _ ← datetime_now; mret tt.

(** [await asyncio.sleep(delay)]: pacing only; a delay of zero or less
    returns at once. *)
Definition asyncio_sleep {O} (delay : Z) : St O unit := mret tt.

(** [range(1, cycles + 1)] *)
Definition range_from_1 (cycles : Z) : list Z :=
  map (fun i => (1 + Z.of_nat i)%Z) (seq 0 (Z.to_nat cycles)).

(** One iteration of the loop of [run]. *)
Definition run_cycle (cycle cycles interval_seconds : Z)
  : St GoalReactiveResponseAgent unit :=
  _log (MsgCycle cycle cycles) ;;
  zoom environment set_environment update_environment ;;
  percepts ← zoom environment set_environment get_all_percepts;
  events ← _derive_events percepts;
  _react events ;;
  asyncio_sleep interval_seconds.

Definition run (cycles interval_seconds : Z) : St GoalReactiveResponseAgent unit :=
  _log (MsgText "Starting goal-driven reactive response agent") ;;
  self ← get;
  _log (MsgInitialState (state_name (state self))) ;;
  for_each (range_from_1 cycles)
           (fun cycle => run_cycle cycle cycles interval_seconds) ;;
  _log (MsgText "Simulation completed") ;;
  _save_trace ;;
  _log (MsgText "Execution trace saved").

(** The construction done by [main], followed by [run]. *)
Definition main_with (cycles interval_seconds : Z) (w : World)
  : option (GoalReactiveResponseAgent * World) :=
  match DisasterEnvironment__init__ w with
  | Some (environment, w) =>
      let agent := GoalReactiveResponseAgent__init__ "RESPONSE-001" environment in
      match run cycles interval_seconds agent w with
      | Some (_, agent, w) => Some (agent, w)
      | None => None
      end
  | None => None
  end.

(** A world with constant draws [u] and clock [0]. *)
Definition const_world (u : Q) : World :=
  mkWorld (fun _ => u) 0 (fun _ => 0%Z) 0 (fun _ => 0%Z) 0.

(** A world with constant draws [u], constant samples [k] and a running
    clock. *)
Definition sampled_world (u : Q) (k : Z) : World :=
  mkWorld (fun _ => u) 0 (fun _ => k) 0 (fun i => Z.of_nat i) 0.

(** ** Specification-level notions *)

(** Strict lexicographic order on priority keys. *)
Definition lex_lt (a b : Z * Z * Q) : Prop :=
  let '(a1, a2, a3) := a in
  let '(b1, b2, b3) := b in
  (a1 < b1)%Z \/ (a1 = b1 /\ ((a2 < b2)%Z \/ (a2 = b2 /\ (a3 < b3)%Q))).

Global Arguments lex_lt : simpl never.
Global Arguments priority_key : simpl never.

(** Sample data for concrete instances. *)
Definition Accra : Location := mkLocation 5.6037 (-0.1870) "Accra".

Definition sample_disaster (n : nat) (ty : DisasterType) (sev : Severity)
    (cas : Z) (dmg : Q) (teams : Z) : DisasterEvent :=
  mkDisasterEvent (format_event_id n) ty Accra sev 0%Z 1%Q cas dmg
    (<["rescue_teams" := teams]>
       (<["water_bottles" := 100%Z]>
          (<["food_packages" := 50%Z]>
             (<["medical_kits" := 10%Z]> ∅)))).

Definition detected (d : DisasterEvent) : DerivedEvent :=
  mkEvent "DISASTER_DETECTED" (name (location d)) (Some d)
          (DetailDisaster (disaster_type d) (severity d)).

(** *** Event derivation, stated compositionally *)

Definition detected_event (loc : string) (d : DisasterEvent) : DerivedEvent :=
  mkEvent "DISASTER_DETECTED" loc (Some d)
          (DetailDisaster (disaster_type d) (severity d)).
Definition escalation_event (loc : string) (d : DisasterEvent) : DerivedEvent :=
  mkEvent "SEVERITY_ESCALATION" loc (Some d) (DetailSeverity (severity d)).
Definition shortage_event (loc : string) (d : DisasterEvent) : DerivedEvent :=
  mkEvent "RESOURCE_SHORTAGE" loc (Some d) (DetailText "High rescue-team requirement").

(** The events of one disaster: detection (when unseen), escalation, shortage. *)
Definition disaster_events (loc : string) (d : DisasterEvent) (seen : gset string)
  : list DerivedEvent :=
  (if bool_decide (event_id d ∈ seen) then [] else [detected_event loc d])
  ++ (if (4 <=? severity_value (severity d))%Z then [escalation_event loc d] else [])
  ++ (if (12 <=? resource "rescue_teams" d)%Z then [shortage_event loc d] else []).

(** The events of the disasters of one percept, disaster after disaster. *)
Fixpoint disasters_events (loc : string) (ds : list DisasterEvent) (seen : gset string)
  : list DerivedEvent :=
  match ds with
  | [] => []
  | d :: ds' =>
      disaster_events loc d seen ++ disasters_events loc ds' (seen ∪ {[event_id d]})
  end.

Definition disaster_ids (ds : list DisasterEvent) : gset string :=
  list_to_set (map event_id ds).

(** The threshold events of one percept. *)
Definition threshold_events (p : EnvironmentPercept) : list DerivedEvent :=
  (if Qle_bool 42 (p_temperature p)
   then [mkEvent "TEMP_SPIKE" (name (p_location p)) None
                 (DetailTemperature (p_temperature p))]
   else [])
  ++ (if Qle_bool 1.5 (p_water_level p)
      then [mkEvent "WATER_RISE" (name (p_location p)) None
                    (DetailWaterLevel (p_water_level p))]
      else []).

Definition percept_events (p : EnvironmentPercept) (seen : gset string)
  : list DerivedEvent :=
  threshold_events p
  ++ disasters_events (name (p_location p)) (p_active_disasters p) seen.

(** The events of a batch: percept after percept, the seen-set growing. *)
Fixpoint ordered_events (ps : list EnvironmentPercept) (seen : gset string)
  : list DerivedEvent :=
  match ps with
  | [] => []
  | p :: ps' =>
      percept_events p seen
      ++ ordered_events ps' (seen ∪ disaster_ids (p_active_disasters p))
  end.

(** The disaster ids visible in a batch of percepts. *)
Definition percept_ids (ps : list EnvironmentPercept) : gset string :=
  disaster_ids (flat_map p_active_disasters ps).

(** Rank of a rule in the rule list of the event deriver. *)
Definition rule_rank (ty : string) : nat :=
  if String.eqb ty "TEMP_SPIKE" then 0
  else if String.eqb ty "WATER_RISE" then 1
  else if String.eqb ty "DISASTER_DETECTED" then 2
  else if String.eqb ty "SEVERITY_ESCALATION" then 3
  else 4.

(** The events of one location are grouped rule by rule. *)
Fixpoint rule_grouped (ranks : list nat) : bool :=
  match ranks with
  | [] => true
  | r :: rest =>
      match rest with
      | [] => true
      | r' :: _ => (r <=? r')%nat && rule_grouped rest
      end
  end.

(** Number of DISASTER_DETECTED events for the disaster id [id]. *)
Definition is_detected_for (id : string) (e : DerivedEvent) : bool :=
  String.eqb (ev_type e) "DISASTER_DETECTED"
  && match ev_disaster e with
     | Some d => String.eqb (event_id d) id
     | None => false
     end.

Definition count_detected (id : string) (evs : list DerivedEvent) : nat :=
  length (List.filter (is_detected_for id) evs).

Definition is_detected (e : DerivedEvent) : bool :=
  String.eqb (ev_type e) "DISASTER_DETECTED".

(** A percept with the given disasters and quiet conditions. *)
Definition quiet_percept (ds : list DisasterEvent) : EnvironmentPercept :=
  mkPercept 0%Z Accra 30 70 10 100 0 0 false ds.

(** Two critical, unseen disasters at one location. *)
Definition two_critical : list DisasterEvent :=
  [sample_disaster 1 FLOOD CRITICAL 10 30 2;
   sample_disaster 2 FIRE CRITICAL 20 40 2].

Definition non_detected (e : DerivedEvent) : bool := negb (is_detected e).

(** *** Views of the transition history *)

Definition transition_names (self : GoalReactiveResponseAgent)
  : list (string * string) :=
  map (fun r => (tr_from r, tr_to r)) (transition_history self).

(** The cascade fired by a tick with events, up to RECOVERY. *)
Definition cascade : list (string * string) :=
  [("MONITORING", "ASSESSING"); ("ASSESSING", "DISPATCHING");
   ("DISPATCHING", "RECOVERY")].

(** A threshold event that carries no disaster. *)
Definition temp_spike_event : DerivedEvent :=
  mkEvent "TEMP_SPIKE" "Accra" None (DetailTemperature 43).


(** *** The transition history as a chain *)

(** Every record starts where the previous one ended, from [s] on, and no
    record is a self-transition. *)
Fixpoint chain_from (s : string) (h : list TransitionRecord) : Prop :=
  match h with
  | [] => True
  | r :: h' => tr_from r = s /\ tr_from r <> tr_to r /\ chain_from (tr_to r) h'
  end.

(** The to-state of the last record, [s] for an empty history. *)
Fixpoint last_to (s : string) (h : list TransitionRecord) : string :=
  match h with
  | [] => s
  | r :: h' => last_to (tr_to r) h'
  end.

Definition history_ok (self : GoalReactiveResponseAgent) : Prop :=
  chain_from "MONITORING" (transition_history self)
  /\ last_to "MONITORING" (transition_history self) = state_name (state self).

(** The methods of the agent that touch its state. *)
Inductive Method :=
| Call_log (message : Message)
| Call_switch_state (new_state : ResponseState) (reason : string)
| Call_derive_events (percepts : list EnvironmentPercept)
| Call_react (events : list DerivedEvent)
| Call_run (cycles interval_seconds : Z).

Definition invoke (m : Method) : St GoalReactiveResponseAgent unit :=
  match m with
  | Call_log message => _log message
  | Call_switch_state new_state reason => _switch_state new_state reason
  | Call_derive_events percepts => _derive_events percepts ;; mret tt
  | Call_react events => _react events
  | Call_run cycles interval_seconds => run cycles interval_seconds
  end.

(** Agent states reached from construction by completed method calls. *)
Inductive reachable : GoalReactiveResponseAgent -> Prop :=
| reachable_init agent_id environment :
    reachable (GoalReactiveResponseAgent__init__ agent_id environment)
| reachable_call self m w self' w' :
    reachable self -> invoke m self w = Some (tt, self', w') -> reachable self'.

(** An invariant of the object state kept by every completed run of [m]. *)
Definition preserves {O A} (I : O -> Prop) (m : St O A) : Prop :=
  forall s w a s' w', I s -> m s w = Some (a, s', w') -> I s'.

Definition empty_environment : DisasterEnvironment := mkEnv 0 [] [] [].

Definition fresh_agent : GoalReactiveResponseAgent :=
  GoalReactiveResponseAgent__init__ "RESPONSE-001" empty_environment.

(** The agent after one tick whose only event is a temperature spike. *)
Definition recovering_agent : GoalReactiveResponseAgent :=
  match _react [temp_spike_event] fresh_agent (const_world 0) with
  | Some (_, self, _) => self
  | None => fresh_agent
  end.

(** *** Total correctness under a well-formed random source *)

(** From state [s], under any world with unit draws, [m] returns, and its
    result and final state satisfy [post]. *)
Definition wp {O A} (m : St O A) (post : A -> O -> Prop) (s : O) : Prop :=
  forall w, unit_draws w ->
    exists a s' w', m s w = Some (a, s', w') /\ unit_draws w' /\ post a s'.

(** *** Condition ranges *)

(** The documented ranges of the Condition fields. *)
Definition documented (c : Condition) : Prop :=
  (20 <= temperature c)%Q /\ (temperature c <= 45)%Q
  /\ (30 <= humidity c)%Q /\ (humidity c <= 100)%Q
  /\ (0 <= air_quality c)%Q /\ (air_quality c <= 500)%Q
  /\ (0 <= wind_speed c)%Q /\ (0 <= water_level c)%Q.

(** The ranges that hold at a location where a disaster has just spawned;
    temperature and air quality are bounded from below only. *)
Definition relaxed (c : Condition) : Prop :=
  (20 <= temperature c)%Q
  /\ (20 <= humidity c)%Q /\ (humidity c <= 100)%Q
  /\ (0 <= air_quality c)%Q
  /\ (0 <= wind_speed c)%Q /\ (0 <= water_level c)%Q.

(** What one drift step does to a condition record. *)
Definition drift_post (c c' : Condition) : Prop :=
  (20 <= temperature c')%Q /\ (temperature c' <= 45)%Q
  /\ (30 <= humidity c')%Q /\ (humidity c' <= 100)%Q
  /\ (0 <= air_quality c')%Q /\ (air_quality c' <= 500)%Q
  /\ (0 <= wind_speed c')%Q
  /\ water_level c' = water_level c
  /\ seismic_activity c' = seismic_activity c
  /\ smoke_detected c' = smoke_detected c.

(** The severity-correlated bounds of the magnitudes of a disaster. *)
Definition resource_in (key : string) (lo hi : Z) (d : DisasterEvent) : Prop :=
  exists q, resources_needed d !! key = Some q /\ (0 < q)%Z /\ (lo <= q <= hi)%Z.

Definition magnitudes_ok (d : DisasterEvent) : Prop :=
  (0 <= casualties d <= 50 * severity_value (severity d))%Z
  /\ (inject_Z (5 * severity_value (severity d)) <= infrastructure_damage d)%Q
  /\ (infrastructure_damage d <= inject_Z (20 * severity_value (severity d)))%Q
  /\ (0.5 <= affected_area d)%Q /\ (affected_area d <= 50)%Q
  /\ resource_in "medical_kits" 10 100 d
  /\ resource_in "food_packages" 50 500 d
  /\ resource_in "water_bottles" 100 1000 d
  /\ resource_in "rescue_teams" 2 20 d.

(** What a spawn does to the environment [e], giving [ev] and [e']; [R]
    is what is known of the conditions at the spawn location afterwards. *)
Definition spawn_post (R : Condition -> Prop) (e : DisasterEnvironment)
    (ev : DisasterEvent) (e' : DisasterEnvironment) : Prop :=
  event_counter e' = event_counter e + 1
  /\ locations e' = locations e
  /\ active_disasters e' = active_disasters e ++ [ev]
  /\ event_id ev = format_event_id (event_counter e + 1)
  /\ location ev ∈ locations e
  /\ magnitudes_ok ev
  /\ exists c',
       R c'
       /\ current_conditions e'
          = PyDict.set (name (location ev)) c' (current_conditions e).

(** *** Resolution *)

(** The disasters of [ds] that resolve when the draws are read from index
    [pos] on: one draw per disaster, resolved below 0.20. *)
Fixpoint resolved_from (draws : nat -> Q) (pos : nat) (ds : list DisasterEvent)
  : list DisasterEvent :=
  match ds with
  | [] => []
  | d :: ds' =>
      if Qlt_le_dec (draws pos) 0.20 then d :: resolved_from draws (S pos) ds'
      else resolved_from draws (S pos) ds'
  end.

(** The resets of the resolved disasters [rs], applied in order. *)
Fixpoint apply_resets (rs : list DisasterEvent) (conds : PyDict.t Condition)
  : PyDict.t Condition :=
  match rs with
  | [] => conds
  | d :: rs' =>
      apply_resets rs'
        (match PyDict.lookup (name (location d)) conds with
         | Some c => PyDict.set (name (location d)) (resolve_effects d c) conds
         | None => conds
         end)
  end.

(** The catalog [lst] without the disasters whose id is one of [rs]. *)
Fixpoint remaining (rs lst : list DisasterEvent) : list DisasterEvent :=
  match rs with
  | [] => lst
  | d :: rs' =>
      remaining rs'
        (List.filter (fun y => negb (String.eqb (event_id d) (event_id y))) lst)
  end.

(** The field that the resolution of [d] resets, read in [c]. *)
Definition reset_holds (d : DisasterEvent) (c : Condition) : Prop :=
  match disaster_type d with
  | FLOOD => water_level c = 0%Q
  | FIRE => smoke_detected c = false
  | EARTHQUAKE => seismic_activity c = 0%Q
  | DROUGHT | STORM => True
  end.

(** The drift fields of two condition records agree. *)
Definition same_drift_fields (c c' : Condition) : Prop :=
  temperature c' = temperature c /\ humidity c' = humidity c
  /\ wind_speed c' = wind_speed c /\ air_quality c' = air_quality c.

Definition advance_rng (n : nat) (w : World) : World :=
  mkWorld (draws w) (rng_pos w + n) (samples w) (smp_pos w) (clock w) (clk_pos w).

(** The disasters of the catalog of [e] that resolve in world [w]. *)
Definition resolved (e : DisasterEnvironment) (w : World) : list DisasterEvent :=
  resolved_from (draws w) (rng_pos w) (active_disasters e).

(** Every active disaster sits at a location that has conditions. *)
Definition disasters_located (e : DisasterEnvironment) : Prop :=
  Forall (fun d => name (location d) ∈ PyDict.keys (current_conditions e))
         (active_disasters e).

(** An environment with a STORM at Accra, wind at 100 km/h. *)
Definition storm_environment : DisasterEnvironment :=
  mkEnv 1 [sample_disaster 1 STORM HIGH 5 20 2] [Accra]
        [("Accra", mkCondition 30 70 100 100 0 0 false)].

(** [p] with its timestamp replaced. *)
Definition with_timestamp (t : Time) (p : EnvironmentPercept) : EnvironmentPercept :=
  mkPercept t (p_location p) (p_temperature p) (p_humidity p) (p_wind_speed p)
            (p_air_quality p) (p_seismic_activity p) (p_water_level p)
            (p_smoke_detected p) (p_active_disasters p).

(** Every registered location has conditions, in registry order. *)
Definition conditions_cover_locations (e : DisasterEnvironment) : Prop :=
  PyDict.keys (current_conditions e) = map name (locations e).

(** Reads back the number printed by [format_04d]. *)
Definition parse_04d (s : string) : option nat :=
  option_map Nat.of_uint (NilEmpty.uint_of_string s).

(** *** Environment invariant *)

(** [P] holds of the conditions of every key of the dictionary. *)
Definition all_conditions (P : Condition -> Prop) (conds : PyDict.t Condition)
  : Prop :=
  forall k c, PyDict.lookup k conds = Some c -> P c.

(** What holds of every environment the engine builds. *)
Definition env_ok (e : DisasterEnvironment) : Prop :=
  locations e <> []
  /\ conditions_cover_locations e
  /\ Forall (fun d => location d ∈ locations e) (active_disasters e)
  /\ Forall (fun d => exists n, n <= event_counter e
                                /\ event_id d = format_event_id n)
            (active_disasters e)
  /\ NoDup (map event_id (active_disasters e))
  /\ Forall magnitudes_ok (active_disasters e)
  /\ all_conditions (fun c => (0 <= water_level c)%Q) (current_conditions e).

(** What one tick does: the invariant is kept, every location is within
    the relaxed ranges, and within the documented ranges except at the
    location of a disaster spawned in this tick. *)
Definition tick_post (e e' : DisasterEnvironment) : Prop :=
  env_ok e'
  /\ locations e' = locations e
  /\ all_conditions relaxed (current_conditions e')
  /\ ((event_counter e' = event_counter e
       /\ all_conditions documented (current_conditions e'))
      \/ (event_counter e' = event_counter e + 1
          /\ exists loc,
               loc ∈ locations e
               /\ forall k c, k <> name loc ->
                    PyDict.lookup k (current_conditions e') = Some c ->
                    documented c)).

(** The ranges of the conditions drawn at construction. *)
Definition initial_range (c : Condition) : Prop :=
  (25 <= temperature c)%Q /\ (temperature c <= 35)%Q
  /\ (60 <= humidity c)%Q /\ (humidity c <= 90)%Q
  /\ (0 <= wind_speed c)%Q /\ (wind_speed c <= 30)%Q
  /\ (50 <= air_quality c)%Q /\ (air_quality c <= 150)%Q
  /\ seismic_activity c = 0%Q /\ water_level c = 0%Q
  /\ smoke_detected c = false.

(** The dictionary built by storing [cs] under the names of [locs], in order. *)
Definition store_all (locs : list Location) (cs : list Condition)
    (conds : PyDict.t Condition) : PyDict.t Condition :=
  fold_left (fun d (lc : Location * Condition) => PyDict.set (name (fst lc)) (snd lc) d)
            (zip locs cs) conds.

(** Environments built by construction followed by ticks, under
    well-formed random sources. *)
Inductive env_reachable : DisasterEnvironment -> Prop :=
| env_reachable_init w e w' :
    unit_draws w -> DisasterEnvironment__init__ w = Some (e, w') ->
    env_reachable e
| env_reachable_tick e w e' w' :
    env_reachable e -> unit_draws w ->
    update_environment e w = Some (tt, e', w') ->
    env_reachable e'.

(** The environment constructed with every draw equal to 1/2. *)
Definition initial_environment : DisasterEnvironment :=
  match DisasterEnvironment__init__ (const_world (1 # 2)) with
  | Some (e, _) => e
  | None => empty_environment
  end.

(** *** Total runs that need no assumption on the world *)

(** From state [s], in every world, [m] returns, leaves the random
    source as it is, and its result and final state satisfy [post]. *)
Definition runs {O A} (m : St O A) (post : A -> O -> Prop) (s : O) : Prop :=
  forall w, exists a s' w',
    m s w = Some (a, s', w')
    /\ (draws w' = draws w /\ rng_pos w' = rng_pos w
        /\ samples w' = samples w /\ smp_pos w' = smp_pos w)
    /\ post a s'.

(** [self'] is [self] after the transitions [new], in state [st]; goals,
    environment and seen-set are those of [self]. *)
Definition fsm_step (self self' : GoalReactiveResponseAgent)
    (new : list (string * string)) (st : ResponseState) : Prop :=
  state self' = st
  /\ transition_names self' = transition_names self ++ new
  /\ goals self' = goals self
  /\ environment self' = environment self
  /\ last_handled_event_ids self' = last_handled_event_ids self
  /\ agent_id self' = agent_id self.

(** The cascade that a tick with events fires from state [st]. *)
Definition cascade_from (st : ResponseState) : list (string * string) :=
  match st with
  | MONITORING => cascade
  | ASSESSING => [("ASSESSING", "DISPATCHING"); ("DISPATCHING", "RECOVERY")]
  | DISPATCHING => [("DISPATCHING", "RECOVERY")]
  | RECOVERY => []
  end.

(** The transitions fired by one tick from state [st]. *)
Definition react_path (st : ResponseState) (events : list DerivedEvent)
  : list (string * string) :=
  match events with
  | [] => if ResponseState_eqb st MONITORING then []
          else [(state_name st, "MONITORING")]
  | _ => cascade_from st
         ++ match event_disasters events with
            | [] => []
            | _ => [("RECOVERY", "MONITORING")]
            end
  end.

(** The state in which one tick ends. *)
Definition react_final (events : list DerivedEvent) : ResponseState :=
  match events with
  | [] => MONITORING
  | _ => match event_disasters events with
         | [] => RECOVERY
         | _ => MONITORING
         end
  end.

(** The environment after construction and one tick in which every draw is
    1/2 and every sample is 2: a FIRE of severity HIGH spawns at Tema. *)
Definition fire_tick : option (DisasterEnvironment * DisasterEnvironment) :=
  match DisasterEnvironment__init__ (sampled_world (1 # 2) 2) with
  | Some (e, w) =>
      match update_environment e w with
      | Some (_, e', _) => Some (e, e')
      | None => None
      end
  | None => None
  end.

(** The environment after the tick of [fire_tick]. *)
Definition fire_tick_environment : DisasterEnvironment :=
  match fire_tick with
  | Some (_, e') => e'
  | None => empty_environment
  end.

(** A location that is not registered. *)
Definition Wa : Location := mkLocation 10.0601 (-2.5099) "Wa".

(** [ev] is an event that the ungated rules owe to percept [p]: a
    threshold event of [p], or the escalation or shortage event of one of
    its disasters whose severity or rescue-team need reaches the threshold. *)
Definition owed_by (p : EnvironmentPercept) (ev : DerivedEvent) : Prop :=
  ev ∈ threshold_events p
  \/ exists d,
       d ∈ p_active_disasters p
       /\ ((ev = escalation_event (name (p_location p)) d
            /\ (4 <= severity_value (severity d))%Z)
           \/ (ev = shortage_event (name (p_location p)) d
               /\ (12 <= resource "rescue_teams" d)%Z)).

(** * Properties *)

(** ** Priority selection *)

Lemma key_gtb_spec a b : key_gtb a b = true <-> lex_lt b a.
Proof.
  destruct a as [[a1 a2] a3], b as [[b1 b2] b3]; unfold key_gtb, lex_lt.
  destruct (Z.eqb_spec a1 b1) as [->|Hn1]; simpl.
  - destruct (Z.eqb_spec a2 b2) as [->|Hn2]; simpl.
    + destruct (Qeq_bool a3 b3) eqn:He; simpl.
      * apply Qeq_bool_iff in He. split; [discriminate|].
        intros [?|[_ [?|[_ ?]]]]; try lia. rewrite He in H. now apply Qlt_irrefl in H.
      * rewrite negb_true_iff. split.
        -- intros Hle. right; split; [easy|]. right; split; [easy|].
           apply Qnot_le_lt. intros Hc. apply Qle_bool_iff in Hc. congruence.
        -- intros [?|[_ [?|[_ ?]]]]; try lia.
           destruct (Qle_bool a3 b3) eqn:Hc; [|easy].
           apply Qle_bool_iff in Hc. exfalso. eapply Qlt_not_le; eauto.
    + rewrite Z.ltb_lt. split; [intros; right; split; [easy|left; easy]|].
      intros [?|[_ [?|[? _]]]]; lia.
  - rewrite Z.ltb_lt. split; [now left|]. intros [?|[? _]]; lia.
Qed.

Lemma lex_lt_le_trans a b c : lex_lt a b -> ~ lex_lt c b -> lex_lt a c.
Proof.
  destruct a as [[a1 a2] a3], b as [[b1 b2] b3], c as [[c1 c2] c3]; unfold lex_lt.
  intros Hab Hcb.
  destruct (Z.lt_trichotomy c1 b1) as [?|[->|?]]; [tauto| |left; lia].
  destruct Hab as [?|[-> Hab]]; [now left|right; split; [easy|]].
  destruct (Z.lt_trichotomy c2 b2) as [?|[->|?]]; [tauto| |left; lia].
  destruct Hab as [?|[-> Hab]]; [now left|right; split; [easy|]].
  destruct (Qlt_le_dec c3 b3); [tauto|]. eapply Qlt_le_trans; eauto.
Qed.

Lemma lex_le_lt_trans a b c : ~ lex_lt b a -> lex_lt b c -> lex_lt a c.
Proof.
  destruct a as [[a1 a2] a3], b as [[b1 b2] b3], c as [[c1 c2] c3]; unfold lex_lt.
  intros Hba Hbc.
  destruct (Z.lt_trichotomy b1 a1) as [?|[->|?]]; [tauto| |left; lia].
  destruct Hbc as [?|[-> Hbc]]; [now left|right; split; [easy|]].
  destruct (Z.lt_trichotomy b2 a2) as [?|[->|?]]; [tauto| |left; lia].
  destruct Hbc as [?|[-> Hbc]]; [now left|right; split; [easy|]].
  destruct (Qlt_le_dec b3 a3); [tauto|]. eapply Qle_lt_trans; eauto.
Qed.

Lemma lex_lt_irrefl a : ~ lex_lt a a.
Proof.
  destruct a as [[a1 a2] a3]; unfold lex_lt.
  intros [?|[_ [?|[_ ?]]]]; try lia. now apply Qlt_irrefl in H.
Qed.

Lemma lex_lt_asym a b : lex_lt a b -> ~ lex_lt b a.
Proof.
  destruct a as [[a1 a2] a3], b as [[b1 b2] b3]; unfold lex_lt.
  intros [?|[-> [?|[-> H]]]] [?|[? [?|[? H']]]]; try lia.
  eapply Qlt_irrefl, Qlt_trans; eauto.
Qed.

Lemma lex_le_trans a b c : ~ lex_lt b a -> ~ lex_lt c b -> ~ lex_lt c a.
Proof.
  intros Hba Hcb Hca. apply Hcb. eapply lex_lt_le_trans; eauto.
Qed.

(** The scan returns the first element whose key no other element exceeds. *)
Lemma max_scan_spec rest m :
  exists i,
    (m :: rest) !! i = Some (max_scan rest m)
    /\ (forall x, x ∈ m :: rest ->
          ~ lex_lt (priority_key (max_scan rest m)) (priority_key x))
    /\ (forall j x, j < i -> (m :: rest) !! j = Some x ->
          lex_lt (priority_key x) (priority_key (max_scan rest m))).
Proof.
  revert m. induction rest as [|item rest IH]; intros m.
  - exists 0. simpl. split; [done|]. split.
    + intros x Hx. apply list_elem_of_singleton in Hx as ->.
      exact (lex_lt_irrefl _).
    + intros; lia.
  - cbn [max_scan].
    destruct (key_gtb (priority_key item) (priority_key m)) eqn:Hgt.
    + apply key_gtb_spec in Hgt.
      destruct (IH item) as (i & Hi & Hmax & Hfirst).
      set (r := max_scan rest item) in *.
      assert (Hir : ~ lex_lt (priority_key r) (priority_key item))
        by (apply Hmax; left).
      exists (S i). split; [exact Hi|]. split.
      * intros x Hx. apply elem_of_cons in Hx as [->|Hx]; [|now apply Hmax].
        apply lex_lt_asym. eapply lex_lt_le_trans; eauto.
      * intros [|j] x Hj Hx; simpl in Hx.
        -- injection Hx as <-. eapply lex_lt_le_trans; eauto.
        -- apply (Hfirst j); [lia|exact Hx].
    + assert (Hle : ~ lex_lt (priority_key m) (priority_key item)).
      { intros Hc. apply key_gtb_spec in Hc. congruence. }
      destruct (IH m) as (i & Hi & Hmax & Hfirst).
      set (r := max_scan rest m) in *.
      assert (Hmr : ~ lex_lt (priority_key r) (priority_key m))
        by (apply Hmax; left).
      exists (match i with 0 => 0 | S i' => S (S i') end). split; [|split].
      * destruct i; exact Hi.
      * intros x Hx. apply elem_of_cons in Hx as [->|Hx]; [exact Hmr|].
        apply elem_of_cons in Hx as [->|Hx].
        -- eapply lex_le_trans; eauto.
        -- apply Hmax. now right.
      * destruct i as [|i']; [intros; lia|].
        intros [|[|j]] x Hj Hx; simpl in Hx.
        -- apply (Hfirst 0); [lia|exact Hx].
        -- injection Hx as <-. eapply lex_le_lt_trans; [exact Hle|].
           apply (Hfirst 0); [lia|done].
        -- apply (Hfirst (S j)); [lia|exact Hx].
Qed.

Lemma prioritize_first_max (events : list DerivedEvent) :
  event_disasters events <> [] ->
  exists d i,
    _prioritize_disaster events = Some d
    /\ event_disasters events !! i = Some d
    /\ (forall x, x ∈ event_disasters events ->
          ~ lex_lt (priority_key d) (priority_key x))
    /\ (forall j x, j < i -> event_disasters events !! j = Some x ->
          lex_lt (priority_key x) (priority_key d)).
Proof.
  unfold _prioritize_disaster. intros Hne.
  destruct (event_disasters events) as [|m rest]; [done|].
  destruct (max_scan_spec rest m) as (i & Hi & Hmax & Hfirst).
  exists (max_scan rest m), i. auto.
Qed.



(** ** Event derivation *)

Lemma derive_disaster_acc loc d evs seen :
  derive_disaster loc d (evs, seen)
  = (evs ++ disaster_events loc d seen, seen ∪ {[event_id d]}).
Proof.
  unfold derive_disaster, disaster_events, resource.
  change (severity_value CRITICAL) with 4%Z.
  case_bool_decide as Hin.
  - replace (seen ∪ {[event_id d]}) with seen by set_solver.
    destruct (4 <=? _)%Z, (12 <=? _)%Z; simpl;
      rewrite <- ?app_assoc, ?app_nil_r; reflexivity.
  - destruct (4 <=? _)%Z, (12 <=? _)%Z; simpl;
      rewrite <- ?app_assoc, ?app_nil_r; reflexivity.
Qed.

Lemma derive_disasters_fold loc ds evs seen :
  fold_left (fun acc disaster => derive_disaster loc disaster acc) ds (evs, seen)
  = (evs ++ disasters_events loc ds seen, seen ∪ disaster_ids ds).
Proof.
  revert evs seen.
  induction ds as [|d ds IH]; intros evs seen; cbn [fold_left disasters_events].
  - rewrite app_nil_r. f_equal. unfold disaster_ids. set_solver.
  - rewrite derive_disaster_acc, IH, <- app_assoc. f_equal.
    unfold disaster_ids. simpl. set_solver.
Qed.

Lemma derive_percept_acc p evs seen :
  derive_percept p (evs, seen)
  = (evs ++ percept_events p seen, seen ∪ disaster_ids (p_active_disasters p)).
Proof.
  unfold derive_percept, percept_events, threshold_events.
  rewrite derive_disasters_fold.
  destruct (Qle_bool 42 _), (Qle_bool 1.5 _); simpl;
    rewrite <- ?app_assoc, ?app_nil_r; reflexivity.
Qed.

Lemma derive_percepts_fold ps evs seen :
  fold_left (fun acc percept => derive_percept percept acc) ps (evs, seen)
  = (evs ++ ordered_events ps seen, seen ∪ percept_ids ps).
Proof.
  revert evs seen.
  induction ps as [|p ps IH]; intros evs seen; cbn [fold_left ordered_events].
  - rewrite app_nil_r. f_equal. unfold percept_ids, disaster_ids. set_solver.
  - rewrite derive_percept_acc, IH, <- app_assoc. f_equal.
    unfold percept_ids, disaster_ids. simpl. rewrite map_app. set_solver.
Qed.

Lemma derive_loop_ordered ps seen :
  derive_loop ps seen = (ordered_events ps seen, seen ∪ percept_ids ps).
Proof. unfold derive_loop. now rewrite derive_percepts_fold. Qed.

(** C3 (as stated, refuted): with two critical, unseen disasters at one
    location the events alternate DISASTER_DETECTED, SEVERITY_ESCALATION per
    disaster; they are not grouped rule by rule. *)
Lemma derive_events_rule_grouping_counterexample :
  map ev_type (fst (derive_loop [quiet_percept two_critical] ∅))
  = ["DISASTER_DETECTED"; "SEVERITY_ESCALATION";
     "DISASTER_DETECTED"; "SEVERITY_ESCALATION"]
  /\ rule_grouped (map (fun e => rule_rank (ev_type e))
                       (fst (derive_loop [quiet_percept two_critical] ∅))) = false.
Proof. split; vm_compute; reflexivity. Qed.

(** C3 (amended): the derived events are produced percept by percept in the
    order given; within a percept come TEMP_SPIKE, then WATER_RISE, then for
    each active disaster in catalog order its DISASTER_DETECTED (when unseen),
    SEVERITY_ESCALATION and RESOURCE_SHORTAGE, in that order; the call
    always returns and adds the visible disaster ids to the seen-set. *)
Theorem derive_events_order (ps : list EnvironmentPercept)
    (self : GoalReactiveResponseAgent) (w : World) :
  _derive_events ps self w
  = Some (ordered_events ps (last_handled_event_ids self),
          set_last_handled_event_ids
            (last_handled_event_ids self ∪ percept_ids ps) self,
          w).
Proof.
  unfold _derive_events, mbind, St_bind, get. rewrite derive_loop_ordered.
  reflexivity.
Qed.

(** *** Deduplication through the seen-set *)

Lemma count_detected_app id l1 l2 :
  count_detected id (l1 ++ l2) = count_detected id l1 + count_detected id l2.
Proof. unfold count_detected. now rewrite List.filter_app, length_app. Qed.

Lemma count_detected_disaster id loc d seen :
  count_detected id (disaster_events loc d seen)
  = if decide (id ∈ seen) then 0
    else if decide (event_id d = id) then 1 else 0.
Proof.
  unfold disaster_events. rewrite !count_detected_app.
  assert (He : count_detected id
                 (if (4 <=? severity_value (severity d))%Z
                  then [escalation_event loc d] else []) = 0)
    by (destruct (4 <=? _)%Z; reflexivity).
  assert (Hs : count_detected id
                 (if (12 <=? resource "rescue_teams" d)%Z
                  then [shortage_event loc d] else []) = 0)
    by (destruct (12 <=? _)%Z; reflexivity).
  rewrite He, Hs, !Nat.add_0_r.
  case_bool_decide as Hin.
  - destruct (decide (id ∈ seen)); [done|].
    destruct (decide (event_id d = id)); [subst; done|done].
  - unfold count_detected, is_detected_for. cbn.
    destruct (String.eqb_spec (event_id d) id) as [Heq|Hne].
    + rewrite (decide_False (P := id ∈ seen)) by (rewrite <- Heq; exact Hin).
      now rewrite decide_True.
    + rewrite (decide_False (P := event_id d = id)) by exact Hne.
      now destruct (decide (id ∈ seen)).
Qed.

Lemma count_detected_disasters id loc ds seen :
  count_detected id (disasters_events loc ds seen)
  = if decide (id ∈ seen) then 0
    else if decide (id ∈ disaster_ids ds) then 1 else 0.
Proof.
  revert seen. induction ds as [|d ds IH]; intros seen; cbn [disasters_events].
  - destruct (decide (id ∈ seen)); [done|].
    rewrite decide_False; [done|]. unfold disaster_ids. set_solver.
  - rewrite count_detected_app, count_detected_disaster, IH.
    unfold disaster_ids in *. cbn [map list_to_set].
    repeat case_decide; try done; set_solver.
Qed.

Lemma count_detected_thresholds id p : count_detected id (threshold_events p) = 0.
Proof.
  unfold threshold_events. destruct (Qle_bool 42 _), (Qle_bool 1.5 _); reflexivity.
Qed.

Lemma count_detected_ordered id ps seen :
  count_detected id (ordered_events ps seen)
  = if decide (id ∈ seen) then 0
    else if decide (id ∈ percept_ids ps) then 1 else 0.
Proof.
  revert seen. induction ps as [|p ps IH]; intros seen; cbn [ordered_events].
  - destruct (decide (id ∈ seen)); [done|].
    rewrite decide_False; [done|]. unfold percept_ids, disaster_ids. set_solver.
  - unfold percept_events.
    rewrite !count_detected_app, count_detected_thresholds,
      count_detected_disasters, IH.
    assert (Hids : percept_ids (p :: ps)
                   = disaster_ids (p_active_disasters p) ∪ percept_ids ps).
    { unfold percept_ids, disaster_ids. cbn [flat_map].
      rewrite map_app. set_solver. }
    rewrite Hids. repeat case_decide; try done; set_solver.
Qed.

(** With every visible id already seen, only the ungated events remain. *)
Lemma disasters_events_seen loc ds seen seen' :
  disaster_ids ds ⊆ seen' ->
  disasters_events loc ds seen'
  = List.filter non_detected (disasters_events loc ds seen).
Proof.
  revert seen seen'.
  induction ds as [|d ds IH]; intros seen seen' Hsub; cbn [disasters_events];
    [done|].
  assert (Hd : event_id d ∈ seen').
  { unfold disaster_ids in Hsub. cbn [map list_to_set] in Hsub. set_solver. }
  assert (Hds : disaster_ids ds ⊆ seen' ∪ {[event_id d]}).
  { unfold disaster_ids in *. cbn [map list_to_set] in Hsub. set_solver. }
  rewrite List.filter_app, <- (IH (seen ∪ {[event_id d]}) _ Hds).
  f_equal. unfold disaster_events. rewrite bool_decide_true by exact Hd.
  rewrite !List.filter_app.
  case_bool_decide; destruct (4 <=? _)%Z, (12 <=? _)%Z; reflexivity.
Qed.

Lemma ordered_events_seen ps seen seen' :
  percept_ids ps ⊆ seen' ->
  ordered_events ps seen' = List.filter non_detected (ordered_events ps seen).
Proof.
  revert seen seen'.
  induction ps as [|p ps IH]; intros seen seen' Hsub; cbn [ordered_events];
    [done|].
  assert (Hids : percept_ids (p :: ps)
                 = disaster_ids (p_active_disasters p) ∪ percept_ids ps).
  { unfold percept_ids, disaster_ids. cbn [flat_map]. rewrite map_app. set_solver. }
  rewrite Hids in Hsub.
  unfold percept_events. rewrite !List.filter_app.
  rewrite <- (IH (seen ∪ disaster_ids (p_active_disasters p))
                 (seen' ∪ disaster_ids (p_active_disasters p))) by set_solver.
  rewrite <- (disasters_events_seen _ _ seen seen') by set_solver.
  f_equal. unfold threshold_events.
  destruct (Qle_bool 42 _), (Qle_bool 1.5 _); reflexivity.
Qed.

Lemma count_detected_seen id ps seen :
  id ∈ seen -> count_detected id (ordered_events ps seen) = 0.
Proof. intros Hin. rewrite count_detected_ordered. now rewrite decide_True. Qed.

(** C5: over two successive derive calls on the same percepts, a
    DISASTER_DETECTED event for a disaster id is emitted once, by the first
    call, exactly when the id is visible and not yet in the seen-set; the
    first call adds the visible ids to the seen-set; the second call emits no
    DISASTER_DETECTED and re-emits every other event of the first. *)
Theorem disaster_detected_once (ps : list EnvironmentPercept)
    (self : GoalReactiveResponseAgent) (w : World) (id : string) :
  exists ev1 self1 ev2 self2,
    _derive_events ps self w = Some (ev1, self1, w)
    /\ _derive_events ps self1 w = Some (ev2, self2, w)
    /\ count_detected id ev1
       = (if decide (id ∈ last_handled_event_ids self) then 0
          else if decide (id ∈ percept_ids ps) then 1 else 0)
    /\ last_handled_event_ids self1 = last_handled_event_ids self ∪ percept_ids ps
    /\ count_detected id ev2 = 0
    /\ Forall (fun e => is_detected e = false) ev2
    /\ ev2 = List.filter non_detected ev1.
Proof.
  set (seen := last_handled_event_ids self).
  assert (Hev2 : ordered_events ps (seen ∪ percept_ids ps)
                 = List.filter non_detected (ordered_events ps seen))
    by (apply ordered_events_seen; set_solver).
  exists (ordered_events ps seen),
    (set_last_handled_event_ids (seen ∪ percept_ids ps) self),
    (ordered_events ps (seen ∪ percept_ids ps)),
    (set_last_handled_event_ids (seen ∪ percept_ids ps ∪ percept_ids ps)
       (set_last_handled_event_ids (seen ∪ percept_ids ps) self)).
  split; [apply derive_events_order|].
  split; [apply derive_events_order|].
  split; [apply count_detected_ordered|].
  split; [reflexivity|].
  split.
  { rewrite count_detected_ordered.
    destruct (decide (id ∈ seen ∪ percept_ids ps)) as [|Hn]; [done|].
    rewrite decide_False; [done|]. set_solver. }
  split; [|exact Hev2].
  rewrite Hev2. apply Forall_forall. intros e He.
  apply list_elem_of_In in He. apply List.filter_In in He.
  destruct He as [_ He]. unfold non_detected in He.
  now apply negb_true_iff in He.
Qed.

(** ** Reactive policy *)

(** ** Preservation of invariants by monadic code *)

Section Preserves.
Context {O : Type} (I : O -> Prop).

Lemma preserves_ret {A} (a : A) : preserves I (mret a : St O A).
Proof. intros s w x s' w' Hi [= <- <- <-]. exact Hi. Qed.

Lemma preserves_get : preserves I (get : St O O).
Proof. intros s w x s' w' Hi [= <- <- <-]. exact Hi. Qed.

Lemma preserves_raise {A} : preserves I (raise : St O A).
Proof. intros s w x s' w' _ [=]. Qed.

Lemma preserves_of_option {A} (o : option A) : preserves I (of_option o : St O A).
Proof. destruct o; [apply preserves_ret|apply preserves_raise]. Qed.

Lemma preserves_modify (f : O -> O) :
  (forall s, I s -> I (f s)) -> preserves I (modify f).
Proof. intros Hf s w x s' w' Hi [= <- <- <-]. auto. Qed.

Lemma preserves_bind {A B} (m : St O A) (k : A -> St O B) :
  preserves I m -> (forall a, preserves I (k a)) -> preserves I (m ≫= k).
Proof.
  intros Hm Hk s w b s' w' Hi. unfold mbind, St_bind.
  destruct (m s w) as [[[a s1] w1]|] eqn:Em; [|discriminate].
  intros Ek. eapply Hk; [|exact Ek]. eapply Hm; eauto.
Qed.

Lemma preserves_when (c : bool) (body : St O unit) :
  preserves I body -> preserves I (when c body).
Proof. destruct c; [auto|intros _; apply preserves_ret]. Qed.

Lemma preserves_for_each {A} (xs : list A) (body : A -> St O unit) :
  (forall x, preserves I (body x)) -> preserves I (for_each xs body).
Proof.
  intros Hb. induction xs as [|x xs IH]; cbn [for_each].
  - apply preserves_ret.
  - apply preserves_bind; auto.
Qed.

Lemma preserves_map_st {A B} (f : A -> St O B) (xs : list A) :
  (forall x, preserves I (f x)) -> preserves I (map_st f xs).
Proof.
  intros Hf. induction xs as [|x xs IH]; cbn [map_st].
  - apply preserves_ret.
  - apply preserves_bind; [auto|]. intros y.
    apply preserves_bind; [auto|]. intros ys. apply preserves_ret.
Qed.

Lemma preserves_random_random : preserves I (random_random : St O Q).
Proof. intros s w x s' w' Hi [= <- <- <-]. exact Hi. Qed.

Lemma preserves_datetime_now : preserves I (datetime_now : St O Time).
Proof. intros s w x s' w' Hi [= <- <- <-]. exact Hi. Qed.
End Preserves.

Lemma preserves_zoom {O T A} (I : O -> Prop) (proj : O -> T) (upd : T -> O -> O)
    (m : St T A) :
  (forall t s, I s -> I (upd t s)) -> preserves I (zoom proj upd m).
Proof.
  intros Hu s w a s' w' Hi. unfold zoom.
  destruct (m (proj s) w) as [[[x t'] w1]|]; [|discriminate].
  intros [= <- <- <-]. auto.
Qed.

(** ** The transition history is a chain *)

Lemma chain_from_snoc s h r :
  chain_from s h -> tr_from r = last_to s h -> tr_from r <> tr_to r ->
  chain_from s (h ++ [r]) /\ last_to s (h ++ [r]) = tr_to r.
Proof.
  revert s. induction h as [|r0 h IH]; intros s Hc Hf Hne; cbn in *.
  - auto.
  - destruct Hc as (H1 & H2 & H3). destruct (IH _ H3 Hf Hne) as [H4 H5]. auto.
Qed.

Lemma state_name_inj a b : state_name a = state_name b -> a = b.
Proof. destruct a, b; cbn; intros H; try reflexivity; discriminate. Qed.

Lemma ResponseState_eqb_eq a b : ResponseState_eqb a b = true <-> a = b.
Proof. destruct a, b; cbn; split; intros H; try reflexivity; discriminate. Qed.

Lemma history_ok_log message : preserves history_ok (_log message).
Proof.
  unfold _log. apply preserves_bind; [apply preserves_datetime_now|].
  intros now. apply preserves_modify. intros s Hs. exact Hs.
Qed.

Lemma history_ok_switch_state new_state reason :
  preserves history_ok (_switch_state new_state reason).
Proof.
  intros s w x s' w' [Hc Hl]. unfold _switch_state, mbind, St_bind, get.
  destruct (ResponseState_eqb (state s) new_state) eqn:Heq.
  - intros [= <- <- <-]. now split.
  - unfold modify, _log, _timestamp, datetime_now, mbind, St_bind.
    intros [= <- <- <-]. cbn.
    apply chain_from_snoc; [exact Hc|cbn; now rewrite Hl|cbn].
    intros Hn. apply state_name_inj, ResponseState_eqb_eq in Hn. congruence.
Qed.

Lemma history_ok_react events : preserves history_ok (_react events).
Proof.
  unfold _react.
  destruct events as [|e evs];
    repeat first
      [ apply history_ok_log
      | apply history_ok_switch_state
      | apply preserves_get
      | apply preserves_ret
      | apply preserves_when
      | apply preserves_for_each; intros ?
      | apply preserves_bind; [|intros ?]
      | match goal with
        | |- preserves _ (match ?o with Some _ => _ | None => _ end) => destruct o
        | |- preserves _ (if ?c then _ else _) => destruct c
        end ].
Qed.

Lemma history_ok_derive_events percepts :
  preserves history_ok (_derive_events percepts).
Proof.
  intros s w x s' w' Hs. rewrite derive_events_order. intros [= <- <- <-]. exact Hs.
Qed.

Lemma history_ok_run cycles interval_seconds :
  preserves history_ok (run cycles interval_seconds).
Proof.
  unfold run, run_cycle, _save_trace, asyncio_sleep.
  repeat first
    [ apply history_ok_log
    | apply history_ok_react
    | apply history_ok_derive_events
    | apply preserves_get
    | apply preserves_ret
    | apply preserves_datetime_now
    | apply preserves_zoom; intros ? ? H; exact H
    | apply preserves_for_each; intros ?
    | apply preserves_bind; [|intros ?] ].
Qed.

Lemma history_ok_invoke m : preserves history_ok (invoke m).
Proof.
  destruct m; cbn [invoke].
  - apply history_ok_log.
  - apply history_ok_switch_state.
  - apply preserves_bind; [apply history_ok_derive_events|].
    intros ?. apply preserves_ret.
  - apply history_ok_react.
  - apply history_ok_run.
Qed.

Lemma switch_state_same (self : GoalReactiveResponseAgent) (w : World) reason :
  _switch_state (state self) reason self w = Some (tt, self, w).
Proof.
  unfold _switch_state, mbind, St_bind, get.
  now rewrite (proj2 (ResponseState_eqb_eq _ _) eq_refl).
Qed.

Lemma reachable_history_ok self : reachable self -> history_ok self.
Proof.
  induction 1 as [id env|self m w self' w' _ IH Hcall].
  - split; reflexivity.
  - eapply history_ok_invoke; eauto.
Qed.

Lemma chain_from_no_self s h r : chain_from s h -> r ∈ h -> tr_from r <> tr_to r.
Proof.
  revert s. induction h as [|r0 h IH]; intros s Hc Hin.
  - now apply elem_of_nil in Hin.
  - destruct Hc as (_ & Hne & Hc). apply elem_of_cons in Hin as [->|Hin]; eauto.
Qed.

Lemma chain_from_linked s h i r r' :
  chain_from s h -> h !! i = Some r -> h !! S i = Some r' -> tr_from r' = tr_to r.
Proof.
  revert s i. induction h as [|r0 h IH]; intros s i Hc Hi Hsi; [done|].
  destruct Hc as (_ & _ & Hc). destruct i as [|i]; cbn in Hi, Hsi.
  - injection Hi as <-. destruct h as [|r1 h]; [done|].
    injection Hsi as <-. now destruct Hc.
  - eapply IH; eauto.
Qed.

Lemma last_to_last s h :
  last_to s h = match last h with Some r => tr_to r | None => s end.
Proof.
  revert s. induction h as [|r0 h IH]; intros s; [done|].
  cbn [last_to]. rewrite IH. destruct h as [|r1 h]; [reflexivity|].
  change (last (r0 :: r1 :: h)) with (last (r1 :: h)).
  destruct (last (r1 :: h)) eqn:E; [reflexivity|].
  now apply last_None in E.
Qed.

(** C10: in every agent state reached from construction, no recorded
    transition is a self-transition, the first record leaves MONITORING,
    each record leaves the state the previous one entered, and the last
    record enters the current state (which is MONITORING when the history is
    empty); a switch to the current state changes nothing and logs
    nothing. *)
Theorem transition_history_chain :
  (forall self, reachable self ->
     (forall r, r ∈ transition_history self -> tr_from r <> tr_to r)
     /\ (forall r, transition_history self !! 0 = Some r -> tr_from r = "MONITORING")
     /\ (forall i r r', transition_history self !! i = Some r ->
                        transition_history self !! S i = Some r' ->
                        tr_from r' = tr_to r)
     /\ match last (transition_history self) with
        | Some r => tr_to r = state_name (state self)
        | None => state self = MONITORING
        end)
  /\ (forall self w reason,
        _switch_state (state self) reason self w = Some (tt, self, w)).
Proof.
  split; [|apply switch_state_same].
  intros self Hr. destruct (reachable_history_ok self Hr) as [Hc Hl].
  split; [intros r; now apply chain_from_no_self with (s := "MONITORING")|].
  split.
  { intros r H0. destruct (transition_history self) as [|r0 h]; [done|].
    injection H0 as <-. now destruct Hc. }
  split; [intros i r r'; now apply chain_from_linked with (s := "MONITORING")|].
  rewrite last_to_last in Hl. destruct (last (transition_history self)); [done|].
  now apply state_name_inj.
Qed.

Lemma transition_history_chain_witness :
  reachable recovering_agent
  /\ transition_names recovering_agent = cascade
  /\ (forall r, r ∈ transition_history recovering_agent -> tr_from r <> tr_to r)
  /\ (forall r, transition_history recovering_agent !! 0 = Some r ->
                tr_from r = "MONITORING")
  /\ (forall i r r', transition_history recovering_agent !! i = Some r ->
                     transition_history recovering_agent !! S i = Some r' ->
                     tr_from r' = tr_to r)
  /\ match last (transition_history recovering_agent) with
     | Some r => tr_to r = state_name (state recovering_agent)
     | None => state recovering_agent = MONITORING
     end.
Proof.
  assert (Hr : reachable recovering_agent).
  { eapply (reachable_call fresh_agent (Call_react [temp_spike_event])
              (const_world 0) recovering_agent);
      [apply reachable_init|vm_compute; reflexivity]. }
  split; [exact Hr|]. split; [reflexivity|].
  exact (proj1 transition_history_chain recovering_agent Hr).
Defined.

(** ** Weakest-precondition rules *)

Section WpRules.
Context {O : Type}.

Lemma wp_ret {A} (a : A) (post : A -> O -> Prop) s :
  post a s -> wp (mret a) post s.
Proof. intros Hp w Hw. now exists a, s, w. Qed.

Lemma wp_bind {A B} (m : St O A) (k : A -> St O B) (post : B -> O -> Prop) s :
  wp m (fun a s' => wp (k a) post s') s -> wp (m ≫= k) post s.
Proof.
  intros Hm w Hw. destruct (Hm w Hw) as (a & s1 & w1 & Em & Hw1 & Hk).
  destruct (Hk w1 Hw1) as (b & s2 & w2 & Ek & Hw2 & Hp).
  exists b, s2, w2. unfold mbind, St_bind. now rewrite Em.
Qed.

Lemma wp_mono {A} (m : St O A) (post post' : A -> O -> Prop) s :
  wp m post s -> (forall a s', post a s' -> post' a s') -> wp m post' s.
Proof.
  intros Hm Himp w Hw. destruct (Hm w Hw) as (a & s1 & w1 & Em & Hw1 & Hp).
  exists a, s1, w1. auto.
Qed.

Lemma wp_get (post : O -> O -> Prop) s : post s s -> wp get post s.
Proof. intros Hp w Hw. now exists s, s, w. Qed.

Lemma wp_modify (f : O -> O) (post : unit -> O -> Prop) s :
  post tt (f s) -> wp (modify f) post s.
Proof. intros Hp w Hw. now exists tt, (f s), w. Qed.

Lemma wp_of_option {A} (o : option A) (post : A -> O -> Prop) s a :
  o = Some a -> post a s -> wp (of_option o) post s.
Proof. intros -> Hp w Hw. now exists a, s, w. Qed.

Lemma wp_when (c : bool) (body : St O unit) (post : unit -> O -> Prop) s :
  (c = true -> wp body post s) -> (c = false -> post tt s) ->
  wp (when c body) post s.
Proof. destruct c; cbn; intros H1 H2; [auto|apply wp_ret; auto]. Qed.

Lemma wp_datetime_now (post : Time -> O -> Prop) s :
  (forall t, post t s) -> wp datetime_now post s.
Proof.
  intros Hp w Hw. eexists _, s, _. split; [reflexivity|]. split; [exact Hw|auto].
Qed.

Lemma wp_random_random (post : Q -> O -> Prop) s :
  (forall u, (0 <= u)%Q -> (u < 1)%Q -> post u s) -> wp random_random post s.
Proof.
  intros Hp w Hw. eexists _, s, _. split; [reflexivity|]. split; [exact Hw|].
  destruct (Hw (rng_pos w)). auto.
Qed.

Lemma wp_random_uniform (a b : Q) (post : Q -> O -> Prop) s :
  (a <= b)%Q ->
  (forall x, (a <= x)%Q -> (x <= b)%Q -> post x s) ->
  wp (random_uniform a b) post s.
Proof.
  intros Hab Hp. unfold random_uniform. apply wp_bind, wp_random_random.
  intros u Hu0 Hu1. apply wp_ret, Hp; nra.
Qed.

Lemma wp_randbelow (n : Z) (post : Z -> O -> Prop) s :
  (0 < n)%Z ->
  (forall k, (0 <= k < n)%Z -> post k s) ->
  wp (randbelow n) post s.
Proof.
  intros Hn Hp w Hw. unfold randbelow.
  destruct (Z.ltb_spec 0 n) as [_|]; [|lia].
  eexists _, s, _. split; [reflexivity|]. split; [exact Hw|].
  apply Hp, Z.mod_pos_bound, Hn.
Qed.

Lemma wp_random_randint (a b : Z) (post : Z -> O -> Prop) s :
  (a <= b)%Z ->
  (forall k, (a <= k <= b)%Z -> post k s) ->
  wp (random_randint a b) post s.
Proof.
  intros Hab Hp. unfold random_randint. apply wp_bind, wp_randbelow; [lia|].
  intros k Hk. apply wp_ret, Hp. lia.
Qed.

Lemma wp_random_choice {A} (seq : list A) (post : A -> O -> Prop) s :
  seq <> [] ->
  (forall x, x ∈ seq -> post x s) ->
  wp (random_choice seq) post s.
Proof.
  intros Hne Hp. unfold random_choice. apply wp_bind, wp_randbelow.
  { destruct seq; [done|cbn; lia]. }
  intros k Hk. destruct (Z.ltb_spec k 0) as [|_]; [lia|].
  destruct (seq !! Z.to_nat k) as [x|] eqn:Ex.
  - apply wp_ret, Hp. eapply list_elem_of_lookup_2; eauto.
  - apply lookup_ge_None in Ex. lia.
Qed.
End WpRules.

(** ** Dictionaries *)

Lemma PyDict_lookup_set_eq {V} k (v : V) d : PyDict.lookup k (PyDict.set k v d) = Some v.
Proof.
  induction d as [|[k' v'] d IH]; cbn.
  - now rewrite String.eqb_refl.
  - destruct (String.eqb k k') eqn:E; cbn; rewrite E; auto.
Qed.

Lemma PyDict_lookup_set_ne {V} k k' (v : V) d :
  k <> k' -> PyDict.lookup k' (PyDict.set k v d) = PyDict.lookup k' d.
Proof.
  intros Hne. induction d as [|[k0 v0] d IH]; cbn.
  - destruct (String.eqb_spec k' k); [congruence|reflexivity].
  - destruct (String.eqb_spec k k0) as [->|Hk]; cbn.
    + destruct (String.eqb_spec k' k0); [congruence|reflexivity].
    + destruct (String.eqb k' k0); auto.
Qed.

Lemma PyDict_lookup_set {V} k k' (v : V) d :
  PyDict.lookup k' (PyDict.set k v d)
  = if String.eqb k k' then Some v else PyDict.lookup k' d.
Proof.
  destruct (String.eqb_spec k k') as [->|Hne].
  - apply PyDict_lookup_set_eq.
  - now apply PyDict_lookup_set_ne.
Qed.

Lemma PyDict_lookup_is_Some {V} k (d : PyDict.t V) :
  is_Some (PyDict.lookup k d) <-> k ∈ PyDict.keys d.
Proof.
  induction d as [|[k' v'] d IH]; cbn.
  - split; [intros [? [=]]|intros H; now apply elem_of_nil in H].
  - destruct (String.eqb_spec k k') as [->|Hne].
    + split; [intros _; left|eauto].
    + rewrite IH. split; [now right|].
      intros H. apply elem_of_cons in H as [?|?]; [congruence|done].
Qed.

Lemma PyDict_keys_set {V} k (v : V) d :
  k ∈ PyDict.keys d -> PyDict.keys (PyDict.set k v d) = PyDict.keys d.
Proof.
  induction d as [|[k' v'] d IH]; cbn; intros Hin.
  - now apply elem_of_nil in Hin.
  - destruct (String.eqb_spec k k') as [->|Hne]; cbn; [reflexivity|].
    f_equal. apply IH. apply elem_of_cons in Hin as [?|?]; [congruence|done].
Qed.

Lemma PyDict_lookup_values {V} k (d : PyDict.t V) v :
  PyDict.lookup k d = Some v -> v ∈ PyDict.values d.
Proof.
  induction d as [|[k' v'] d IH]; cbn; [discriminate|].
  destruct (String.eqb k k').
  - intros [= ->]. left.
  - intros H. right. auto.
Qed.

(** ** Drift *)

Lemma clamp_bounds lo hi x :
  (lo <= hi)%Q ->
  (lo <= py_max lo (py_min hi x))%Q /\ (py_max lo (py_min hi x) <= hi)%Q.
Proof.
  intros Hle. unfold py_max, py_min. split.
  - apply Q.le_max_l.
  - apply Q.max_lub; [exact Hle|apply Q.le_min_l].
Qed.

Lemma drift_spec {O} (c : Condition) (post : Condition -> O -> Prop) (s : O) :
  (forall c', drift_post c c' -> post c' s) -> wp (drift c) post s.
Proof.
  intros Hp. unfold drift.
  apply wp_bind, wp_random_uniform; [lra|]. intros d1 _ _.
  apply wp_bind, wp_random_uniform; [lra|]. intros d2 _ _.
  apply wp_bind, wp_random_uniform; [lra|]. intros d3 _ _.
  apply wp_bind, wp_random_uniform; [lra|]. intros d4 _ _.
  apply wp_ret, Hp. unfold drift_post. cbn.
  destruct (clamp_bounds 20 45 (temperature c + d1)) as [? ?]; [lra|].
  destruct (clamp_bounds 30 100 (humidity c + d2)) as [? ?]; [lra|].
  destruct (clamp_bounds 0 500 (air_quality c + d4)) as [? ?]; [lra|].
  repeat split; try assumption. apply Q.le_max_l.
Qed.

Lemma drift_loop_spec {O} (conds : PyDict.t Condition)
    (post : PyDict.t Condition -> O -> Prop) (s : O) :
  (forall conds',
     Forall2 (fun e e' => fst e' = fst e /\ drift_post (snd e) (snd e'))
             conds conds' ->
     post conds' s) ->
  wp (map_st (fun entry : string * Condition =>
                cond ← drift (snd entry); mret (fst entry, cond)) conds)
     post s.
Proof.
  revert post. induction conds as [|[k c] conds IH]; intros post Hp; cbn [map_st].
  - apply wp_ret, Hp. constructor.
  - apply wp_bind, wp_bind, drift_spec. intros c' Hc'.
    apply wp_ret, wp_bind, IH. intros conds' Hall.
    apply wp_ret, Hp. constructor; [split; [reflexivity|exact Hc']|exact Hall].
Qed.

(** ** Spawn *)

Lemma spawn_effects_spec {O} (ty : DisasterType) (c : Condition)
    (post : Condition -> O -> Prop) (s : O) :
  documented c ->
  (forall c', relaxed c' -> post c' s) ->
  wp (spawn_effects ty c) post s.
Proof.
  intros (Ht1 & Ht2 & Hh1 & Hh2 & Ha1 & Ha2 & Hw & Hwl) Hp.
  unfold py_max, py_min in *.
  destruct ty; cbn [spawn_effects].
  - apply wp_bind, wp_random_uniform; [lra|]. intros wl Hwl1 Hwl2.
    apply wp_ret, Hp. unfold relaxed, py_min; cbn.
    repeat split; try lra.
    + apply Q.min_glb; lra.
    + apply Q.le_min_l.
  - apply wp_bind, wp_random_uniform; [lra|]. intros sa _ _.
    apply wp_ret, Hp. unfold relaxed; cbn. repeat split; lra.
  - apply wp_bind, wp_random_uniform; [lra|]. intros d1 Hd1 Hd1'.
    apply wp_bind, wp_random_uniform; [lra|]. intros d2 Hd2 Hd2'.
    apply wp_ret, Hp. unfold relaxed; cbn. repeat split; lra.
  - apply wp_bind, wp_random_uniform; [lra|]. intros d1 Hd1 Hd1'.
    apply wp_ret, Hp. unfold relaxed, py_max; cbn.
    repeat split; try lra.
    + apply Q.le_max_l.
    + apply Q.max_lub; lra.
  - apply wp_bind, wp_random_uniform; [lra|]. intros ws Hws1 Hws2.
    apply wp_ret, Hp. unfold relaxed, py_min; cbn.
    repeat split; try lra.
    + apply Q.min_glb; lra.
    + apply Q.le_min_l.
Qed.

Lemma severity_value_range sev : (1 <= severity_value sev <= 5)%Z.
Proof. destruct sev; cbn; lia. Qed.

Lemma spawn_effects_total {O} (ty : DisasterType) (c : Condition)
    (post : Condition -> O -> Prop) (s : O) :
  (forall c', post c' s) -> wp (spawn_effects ty c) post s.
Proof.
  intros Hp. destruct ty; cbn [spawn_effects];
    repeat (apply wp_bind, wp_random_uniform; [lra|]; intros ? _ _);
    apply wp_ret, Hp.
Qed.

Lemma generate_disaster_spec (P R : Condition -> Prop) (e : DisasterEnvironment)
    (post : DisasterEvent -> DisasterEnvironment -> Prop) :
  (forall ty c (post : Condition -> DisasterEnvironment -> Prop) s,
     P c -> (forall c', R c' -> post c' s) -> wp (spawn_effects ty c) post s) ->
  locations e <> [] ->
  PyDict.keys (current_conditions e) = map name (locations e) ->
  (forall k c, PyDict.lookup k (current_conditions e) = Some c -> P c) ->
  (forall ev e', spawn_post R e ev e' -> post ev e') ->
  wp _generate_disaster post e.
Proof.
  intros Heff Hloc Hkeys Hdoc Hp. unfold _generate_disaster.
  apply wp_bind, wp_modify.
  apply wp_bind, wp_random_choice; [done|]. intros ty _.
  apply wp_bind, wp_get. cbn [locations set_event_counter current_conditions].
  apply wp_bind, wp_random_choice; [exact Hloc|]. intros loc Hin.
  apply wp_bind, wp_random_choice; [done|]. intros sev _.
  assert (Hk : is_Some (PyDict.lookup (name loc) (current_conditions e))).
  { apply PyDict_lookup_is_Some. rewrite Hkeys. now apply list_elem_of_fmap_2. }
  destruct Hk as [c Hc].
  apply wp_bind, (wp_of_option _ _ _ c); [exact Hc|].
  assert (Hcdoc : P c) by (eapply Hdoc; eauto).
  apply wp_bind, Heff; [exact Hcdoc|]. intros c' Hc'.
  apply wp_bind, wp_modify. apply wp_bind, wp_get.
  apply wp_bind, wp_datetime_now. intros now.
  apply wp_bind, wp_random_uniform; [lra|]. intros area Ha1 Ha2.
  pose proof (severity_value_range sev) as Hsev.
  apply wp_bind, wp_random_randint; [lia|]. intros cas Hcas.
  apply wp_bind, wp_random_uniform; [rewrite <- Zle_Qle; lia|]. intros dmg Hd1 Hd2.
  apply wp_bind, wp_random_randint; [lia|]. intros mk Hmk.
  apply wp_bind, wp_random_randint; [lia|]. intros fp Hfp.
  apply wp_bind, wp_random_randint; [lia|]. intros wb Hwb.
  apply wp_bind, wp_random_randint; [lia|]. intros rt Hrt.
  apply wp_bind, wp_modify. apply wp_ret, Hp.
  unfold spawn_post, magnitudes_ok, resource_in. cbn.
  split; [reflexivity|]. split; [reflexivity|]. split; [reflexivity|].
  split; [reflexivity|]. split; [exact Hin|]. split.
  - split; [lia|]. split; [now rewrite Z.mul_comm|].
    split; [now rewrite Z.mul_comm|]. split; [lra|]. split; [lra|].
    split; [exists mk; split; [by simplify_map_eq|lia]|].
    split; [exists fp; split; [by simplify_map_eq|lia]|].
    split; [exists wb; split; [by simplify_map_eq|lia]|].
    exists rt; split; [by simplify_map_eq|lia].
  - exists c'. split; [exact Hc'|reflexivity].
Qed.

(** ** Resolution *)

Lemma apply_resets_keys rs conds :
  PyDict.keys (apply_resets rs conds) = PyDict.keys conds.
Proof.
  revert conds. induction rs as [|d rs IH]; intros conds; cbn [apply_resets];
    [reflexivity|].
  rewrite IH. destruct (PyDict.lookup _ conds) eqn:E; [|reflexivity].
  apply PyDict_keys_set, PyDict_lookup_is_Some. eauto.
Qed.

Lemma apply_resets_inv (P : Condition -> Prop) k rs conds c :
  (forall r c, r ∈ rs -> name (location r) = k -> P c -> P (resolve_effects r c)) ->
  PyDict.lookup k conds = Some c -> P c ->
  exists c', PyDict.lookup k (apply_resets rs conds) = Some c' /\ P c'.
Proof.
  revert conds c. induction rs as [|d rs IH]; intros conds c Hcl Hk Hc;
    cbn [apply_resets]; [eauto|].
  assert (Hcl' : forall r c, r ∈ rs -> name (location r) = k -> P c ->
                             P (resolve_effects r c))
    by (intros; apply Hcl; [now right|done|done]).
  destruct (PyDict.lookup (name (location d)) conds) as [cd|] eqn:Ed.
  - destruct (String.eqb_spec (name (location d)) k) as [Heq|Hne].
    + apply (IH _ (resolve_effects d cd)); [exact Hcl'| |].
      * rewrite <- Heq. apply PyDict_lookup_set_eq.
      * rewrite Heq in Ed. assert (cd = c) by congruence. subst cd.
        apply Hcl; [left|exact Heq|exact Hc].
    + apply (IH _ c); [exact Hcl'| |exact Hc].
      now rewrite PyDict_lookup_set_ne.
  - apply (IH _ c); auto.
Qed.

Lemma update_disasters_loop_run ds rem e w :
  Forall (fun d => name (location d) ∈ PyDict.keys (current_conditions e)) ds ->
  _update_disasters_loop ds rem e w
  = Some (rem ++ resolved_from (draws w) (rng_pos w) ds,
          set_current_conditions
            (apply_resets (resolved_from (draws w) (rng_pos w) ds)
                          (current_conditions e)) e,
          advance_rng (length ds) w).
Proof.
  revert rem e w. induction ds as [|d ds IH]; intros rem e w Hall.
  - cbn. rewrite app_nil_r. destruct e, w. unfold advance_rng. cbn.
    now rewrite Nat.add_0_r.
  - apply Forall_cons in Hall as [Hd Hall].
    cbn [_update_disasters_loop resolved_from apply_resets].
    unfold mbind at 1, St_bind at 1, random_random.
    destruct (Qlt_le_dec (draws w (rng_pos w)) 0.20) as [Hlt|Hge].
    + apply PyDict_lookup_is_Some in Hd as [c Hc].
      unfold mbind, St_bind, get, modify. rewrite Hc. cbn [of_option mret St_ret].
      rewrite IH.
      * cbn. rewrite <- app_assoc. unfold advance_rng. cbn.
        now rewrite Hc, Nat.add_succ_r.
      * eapply Forall_impl; [exact Hall|]. intros x Hx.
        cbn [current_conditions set_current_conditions].
        rewrite PyDict_keys_set; [exact Hx|].
        apply PyDict_lookup_is_Some. eauto.
    + rewrite IH by exact Hall. cbn. unfold advance_rng. cbn.
      now rewrite Nat.add_succ_r.
Qed.

Lemma DisasterEvent_eqb_refl d : DisasterEvent_eqb d d = true.
Proof.
  unfold DisasterEvent_eqb, Location_eqb, Severity_eqb.
  rewrite !String.eqb_refl, !Z.eqb_refl, bool_decide_true by reflexivity.
  rewrite !(proj2 (Qeq_bool_iff _ _) (Qeq_refl _)).
  now destruct (disaster_type d).
Qed.

Lemma DisasterEvent_eqb_id a b :
  DisasterEvent_eqb a b = true -> event_id a = event_id b.
Proof.
  unfold DisasterEvent_eqb. rewrite !andb_true_iff.
  intros [[[[[[[[H _] _] _] _] _] _] _] _]. now apply String.eqb_eq.
Qed.

Lemma filter_sublist {A} (p : A -> bool) (l : list A) : sublist (List.filter p l) l.
Proof.
  induction l as [|x l IH]; cbn; [constructor|].
  destruct (p x); now constructor.
Qed.

Lemma filter_ids_NoDup (p : DisasterEvent -> bool) l :
  NoDup (map event_id l) -> NoDup (map event_id (List.filter p l)).
Proof.
  intros Hnd.
  apply (sublist_NoDup _ (map event_id l)); [exact Hnd|].
  apply fmap_sublist, filter_sublist.
Qed.

Lemma elem_of_filter_bool {A} (p : A -> bool) (l : list A) x :
  x ∈ List.filter p l <-> x ∈ l /\ p x = true.
Proof. rewrite !list_elem_of_In. apply List.filter_In. Qed.

Lemma list_remove_spec d lst :
  NoDup (map event_id lst) -> d ∈ lst ->
  list_remove d lst
  = Some (List.filter (fun y => negb (String.eqb (event_id d) (event_id y))) lst).
Proof.
  induction lst as [|y lst IH]; intros Hnd Hin; [now apply elem_of_nil in Hin|].
  cbn [map] in Hnd. apply NoDup_cons in Hnd as [Hy Hnd].
  cbn [list_remove List.filter].
  destruct (DisasterEvent_eqb y d) eqn:Heq.
  - apply DisasterEvent_eqb_id in Heq. rewrite <- Heq, String.eqb_refl. cbn.
    f_equal. symmetry. apply forallb_filter_id, forallb_forall.
    intros x Hx. apply negb_true_iff, String.eqb_neq. intros Hid.
    apply Hy. rewrite Hid. apply list_elem_of_fmap_2. now apply list_elem_of_In.
  - apply elem_of_cons in Hin as [->|Hin];
      [now rewrite DisasterEvent_eqb_refl in Heq|].
    rewrite IH by assumption.
    assert (Hne : event_id d <> event_id y).
    { intros Hid. apply Hy. rewrite <- Hid. now apply list_elem_of_fmap_2. }
    apply String.eqb_neq in Hne. now rewrite Hne.
Qed.

Lemma resolved_from_sublist draws pos ds : sublist (resolved_from draws pos ds) ds.
Proof.
  revert pos. induction ds as [|d ds IH]; intros pos; cbn; [constructor|].
  destruct (Qlt_le_dec _ _); now constructor.
Qed.

Lemma elem_of_remaining rs lst y :
  y ∈ remaining rs lst <-> y ∈ lst /\ event_id y ∉ map event_id rs.
Proof.
  revert lst. induction rs as [|d rs IH]; intros lst; cbn [remaining map].
  - split; [intros H; split; [exact H|apply not_elem_of_nil]|now intros [H _]].
  - rewrite IH, elem_of_filter_bool, negb_true_iff, String.eqb_neq, not_elem_of_cons.
    split; [intros [[? ?] ?]|intros [? [? ?]]]; repeat split; auto.
Qed.

Lemma remove_loop_run rs e w :
  NoDup (map event_id (active_disasters e)) ->
  NoDup (map event_id rs) ->
  (forall d, d ∈ rs -> d ∈ active_disasters e) ->
  for_each rs (fun disaster =>
    self ← get;
    remaining ← of_option (list_remove disaster (active_disasters self));
    modify (set_active_disasters remaining)) e w
  = Some (tt, set_active_disasters (remaining rs (active_disasters e)) e, w).
Proof.
  revert e. induction rs as [|d rs IH]; intros e Hnd Hrs Hin.
  - cbn. now destruct e.
  - cbn [map] in Hrs. apply NoDup_cons in Hrs as [Hd Hrs].
    cbn [for_each remaining]. unfold mbind at 1, St_bind at 1.
    unfold mbind at 1, St_bind at 1, get at 1.
    rewrite list_remove_spec; [|exact Hnd|apply Hin; left].
    cbn [of_option]. unfold mbind at 1, St_bind at 1, mret, St_ret, modify.
    rewrite IH; [reflexivity| | |].
    + cbn. now apply filter_ids_NoDup.
    + exact Hrs.
    + intros d' Hd'. cbn. apply elem_of_filter_bool. split; [apply Hin; now right|].
      apply negb_true_iff, String.eqb_neq. intros Hid. apply Hd. rewrite Hid.
      now apply list_elem_of_fmap_2.
Qed.

Lemma update_disasters_run e w :
  disasters_located e ->
  NoDup (map event_id (active_disasters e)) ->
  _update_disasters e w
  = Some (tt,
          set_active_disasters (remaining (resolved e w) (active_disasters e))
            (set_current_conditions
               (apply_resets (resolved e w) (current_conditions e)) e),
          advance_rng (length (active_disasters e)) w).
Proof.
  intros Hloc Hnd. unfold _update_disasters.
  unfold mbind at 1, St_bind at 1, get at 1.
  unfold mbind at 1, St_bind at 1.
  rewrite update_disasters_loop_run by exact Hloc.
  cbn [app]. fold (resolved e w).
  rewrite remove_loop_run; [reflexivity|exact Hnd| |].
  - apply (sublist_NoDup _ (map event_id (active_disasters e))); [exact Hnd|].
    apply fmap_sublist, resolved_from_sublist.
  - intros d Hd. cbn.
    eapply elem_of_sublist; [exact Hd|apply resolved_from_sublist].
Qed.

Lemma resolve_effects_drift_fields d c : same_drift_fields c (resolve_effects d c).
Proof. unfold resolve_effects, same_drift_fields. destruct (disaster_type d); cbn; auto. Qed.

Lemma resolve_effects_reset_holds d r c :
  reset_holds d c -> reset_holds d (resolve_effects r c).
Proof.
  unfold reset_holds, resolve_effects.
  destruct (disaster_type d), (disaster_type r); cbn; auto.
Qed.

Lemma resolve_effects_reset d c : reset_holds d (resolve_effects d c).
Proof. unfold reset_holds, resolve_effects. destruct (disaster_type d); cbn; auto. Qed.

(** After the resets, the field reset for a resolved disaster is still reset. *)
Lemma apply_resets_reset rs conds d :
  d ∈ rs ->
  name (location d) ∈ PyDict.keys conds ->
  exists c', PyDict.lookup (name (location d)) (apply_resets rs conds) = Some c'
             /\ reset_holds d c'.
Proof.
  revert conds. induction rs as [|r rs IH]; intros conds Hin Hk;
    [now apply elem_of_nil in Hin|].
  cbn [apply_resets].
  apply elem_of_cons in Hin as [<-|Hin].
  - apply PyDict_lookup_is_Some in Hk as [c Hc]. rewrite Hc.
    apply (apply_resets_inv (reset_holds d) _ _ _ (resolve_effects d c)).
    + intros r0 c0 _ _. apply resolve_effects_reset_holds.
    + apply PyDict_lookup_set_eq.
    + apply resolve_effects_reset.
  - apply IH; [exact Hin|].
    destruct (PyDict.lookup (name (location r)) conds) eqn:E; [|exact Hk].
    rewrite PyDict_keys_set; [exact Hk|]. apply PyDict_lookup_is_Some. eauto.
Qed.

(** C6 (as stated, refuted): when a STORM resolves, the disaster leaves the
    catalog but the wind speed its spawn had set is not reset to zero. *)
Lemma storm_resolution_counterexample :
  exists e' w',
    _update_disasters storm_environment (const_world (1 # 10)) = Some (tt, e', w')
    /\ resolved storm_environment (const_world (1 # 10))
       = [sample_disaster 1 STORM HIGH 5 20 2]
    /\ active_disasters e' = []
    /\ option_map wind_speed (PyDict.lookup "Accra" (current_conditions e'))
       = Some 100%Q.
Proof. eexists _, _. split; [vm_compute; reflexivity|]. repeat split. Qed.

(** C6 (amended): the resolution step always completes on an environment
    whose disasters have distinct ids and sit at registered locations; every
    resolved disaster leaves the catalog and no other does; at the location
    of a resolved FLOOD the water level is 0, of a resolved FIRE the smoke
    flag is false, of a resolved EARTHQUAKE the seismic activity is 0;
    temperature, humidity, wind speed and air quality of every location are
    left as they were, and a location where only DROUGHTs or STORMs resolved
    keeps its whole condition record. *)
Theorem resolution_resets (e : DisasterEnvironment) (w : World) :
  disasters_located e ->
  NoDup (map event_id (active_disasters e)) ->
  exists e',
    _update_disasters e w
    = Some (tt, e', advance_rng (length (active_disasters e)) w)
    /\ (forall d, d ∈ active_disasters e' <->
                  (d ∈ active_disasters e
                   /\ event_id d ∉ map event_id (resolved e w)))
    /\ (forall d, d ∈ resolved e w ->
          d ∈ active_disasters e
          /\ (d ∉ active_disasters e')
          /\ exists c', PyDict.lookup (name (location d)) (current_conditions e')
                        = Some c'
                        /\ reset_holds d c')
    /\ (forall k c, PyDict.lookup k (current_conditions e) = Some c ->
          exists c', PyDict.lookup k (current_conditions e') = Some c'
                     /\ same_drift_fields c c')
    /\ (forall k c, PyDict.lookup k (current_conditions e) = Some c ->
          (forall d, d ∈ resolved e w -> name (location d) = k ->
                     disaster_type d = DROUGHT \/ disaster_type d = STORM) ->
          PyDict.lookup k (current_conditions e') = Some c)
    /\ event_counter e' = event_counter e
    /\ locations e' = locations e.
Proof.
  intros Hloc Hnd. eexists. split; [now apply update_disasters_run|].
  cbn [active_disasters current_conditions set_active_disasters
       set_current_conditions event_counter locations].
  assert (Hsub : forall d, d ∈ resolved e w -> d ∈ active_disasters e).
  { intros d Hd. eapply elem_of_sublist; [exact Hd|apply resolved_from_sublist]. }
  split; [intros d; apply elem_of_remaining|].
  split.
  { intros d Hd. split; [now apply Hsub|]. split.
    - rewrite elem_of_remaining. intros [_ Hn]. apply Hn.
      now apply list_elem_of_fmap_2.
    - apply apply_resets_reset; [exact Hd|].
      eapply Forall_forall in Hloc; [exact Hloc|now apply Hsub]. }
  split.
  { intros k c Hk.
    apply (apply_resets_inv (same_drift_fields c) k _ _ c); [|exact Hk|].
    - intros r c0 _ _ (H1 & H2 & H3 & H4).
      destruct (resolve_effects_drift_fields r c0) as (G1 & G2 & G3 & G4).
      unfold same_drift_fields. rewrite G1, G2, G3, G4. auto.
    - unfold same_drift_fields. auto. }
  split; [|auto].
  intros k c Hk Honly.
  destruct (apply_resets_inv (fun c' => c' = c) k (resolved e w)
              (current_conditions e) c) as (c' & Hc' & ->); auto.
  intros r c0 Hr Hrk ->. unfold resolve_effects.
  destruct (Honly r Hr Hrk) as [-> | ->]; reflexivity.
Qed.

Lemma resolution_resets_witness :
  disasters_located storm_environment
  /\ NoDup (map event_id (active_disasters storm_environment))
  /\ exists e',
       _update_disasters storm_environment (const_world (1 # 10))
       = Some (tt, e', advance_rng 1 (const_world (1 # 10)))
       /\ event_counter e' = 1.
Proof.
  assert (H1 : disasters_located storm_environment).
  { repeat constructor. }
  assert (H2 : NoDup (map event_id (active_disasters storm_environment))).
  { repeat constructor. apply not_elem_of_nil. }
  split; [exact H1|]. split; [exact H2|].
  destruct (resolution_resets storm_environment (const_world (1 # 10)) H1 H2)
    as (e' & Hrun & _ & _ & _ & _ & Hc & _).
  exists e'. split; [exact Hrun|exact Hc].
Defined.

(** ** Sensing *)

Lemma sense_run (loc : Location) (e : DisasterEnvironment) (w : World) c :
  PyDict.lookup (name loc) (current_conditions e) = Some c ->
  sense loc e w
  = Some (mkPercept (clock w (clk_pos w)) loc (temperature c) (humidity c)
            (wind_speed c) (air_quality c) (seismic_activity c) (water_level c)
            (smoke_detected c)
            (List.filter (fun d => String.eqb (name (location d)) (name loc))
                         (active_disasters e)),
          e,
          mkWorld (draws w) (rng_pos w) (samples w) (smp_pos w)
                  (clock w) (S (clk_pos w))).
Proof.
  intros Hc. unfold sense, mbind, St_bind, get. rewrite Hc. reflexivity.
Qed.

(** C7: two successive [sense] calls for a registered location, with no
    tick in between, both return; the two percepts differ at most in their
    timestamp; the environment (conditions, catalog, event counter) is
    unchanged and no random draw is consumed. *)
Theorem sense_twice_same_percept (e : DisasterEnvironment) (loc : Location)
    (w : World) :
  conditions_cover_locations e ->
  loc ∈ locations e ->
  exists p1 p2 w1 w2,
    sense loc e w = Some (p1, e, w1)
    /\ sense loc e w1 = Some (p2, e, w2)
    /\ p2 = with_timestamp (p_timestamp p2) p1
    /\ p_location p1 = loc
    /\ (forall d, d ∈ p_active_disasters p1 <->
                  (d ∈ active_disasters e /\ name (location d) = name loc))
    /\ rng_pos w2 = rng_pos w
    /\ draws w2 = draws w.
Proof.
  intros Hcover Hin.
  assert (Hk : is_Some (PyDict.lookup (name loc) (current_conditions e))).
  { apply PyDict_lookup_is_Some. rewrite Hcover. now apply list_elem_of_fmap_2. }
  destruct Hk as [c Hc].
  eexists _, _, _, _. split; [apply (sense_run loc e w c Hc)|].
  split; [apply (sense_run loc e _ c Hc)|].
  cbn. split; [reflexivity|]. split; [reflexivity|].
  split; [|auto].
  intros d. rewrite elem_of_filter_bool, String.eqb_eq. reflexivity.
Qed.

Lemma sense_twice_same_percept_witness :
  conditions_cover_locations storm_environment
  /\ Accra ∈ locations storm_environment
  /\ exists p1 p2 w1 w2,
       sense Accra storm_environment (const_world 0) = Some (p1, storm_environment, w1)
       /\ sense Accra storm_environment w1 = Some (p2, storm_environment, w2)
       /\ p2 = with_timestamp (p_timestamp p2) p1.
Proof.
  assert (H1 : conditions_cover_locations storm_environment) by reflexivity.
  assert (H2 : Accra ∈ locations storm_environment) by (left).
  split; [exact H1|]. split; [exact H2|].
  destruct (sense_twice_same_percept storm_environment Accra (const_world 0) H1 H2)
    as (p1 & p2 & w1 & w2 & Ha & Hb & Hc & _).
  exists p1, p2, w1, w2. auto.
Defined.

(** ** Event identifiers *)

Lemma uint_of_string_zeros k s :
  NilEmpty.uint_of_string (zeros k ++ s)
  = option_map (Nat.iter k Decimal.D0) (NilEmpty.uint_of_string s).
Proof.
  induction k as [|k IH]; cbn [zeros].
  - change (append EmptyString s) with s.
    now destruct (NilEmpty.uint_of_string s).
  - change (append (String "0" (zeros k)) s)
      with (String "0" (append (zeros k) s)).
    cbn [NilEmpty.uint_of_string]. rewrite IH.
    now destruct (NilEmpty.uint_of_string s).
Qed.

Lemma of_uint_leading_zeros k d :
  Nat.of_uint (Nat.iter k Decimal.D0 d) = Nat.of_uint d.
Proof. induction k as [|k IH]; [reflexivity|exact IH]. Qed.

Lemma parse_format_04d n : parse_04d (format_04d n) = Some n.
Proof.
  unfold parse_04d, format_04d.
  rewrite uint_of_string_zeros, NilEmpty.usu. cbn [option_map].
  now rewrite of_uint_leading_zeros, DecimalNat.Unsigned.of_to.
Qed.

Lemma format_event_id_inj n m : format_event_id n = format_event_id m -> n = m.
Proof.
  unfold format_event_id. intros [= H].
  apply (f_equal parse_04d) in H. rewrite !parse_format_04d in H. congruence.
Qed.

(** ** The environment invariant *)

Lemma all_conditions_set P k c conds :
  all_conditions P conds -> P c -> all_conditions P (PyDict.set k c conds).
Proof.
  intros Hall Hc k' c'. rewrite PyDict_lookup_set.
  destruct (String.eqb k k'); [intros [= <-]; exact Hc|apply Hall].
Qed.

Lemma all_conditions_apply_resets P rs conds :
  (forall r c, P c -> P (resolve_effects r c)) ->
  all_conditions P conds -> all_conditions P (apply_resets rs conds).
Proof.
  intros Hcl Hall k c' Hk.
  assert (Hin : k ∈ PyDict.keys conds).
  { rewrite <- (apply_resets_keys rs). apply PyDict_lookup_is_Some. eauto. }
  apply PyDict_lookup_is_Some in Hin as [c Hc].
  destruct (apply_resets_inv P k rs conds c) as (c'' & Hc'' & HP); eauto.
  congruence.
Qed.

Lemma remaining_sublist rs lst : sublist (remaining rs lst) lst.
Proof.
  revert lst. induction rs as [|d rs IH]; intros lst; cbn [remaining];
    [reflexivity|].
  etransitivity; [apply IH|apply filter_sublist].
Qed.

Lemma drift_loop_lookup conds conds' k c' :
  Forall2 (fun e e' : string * Condition =>
             fst e' = fst e /\ drift_post (snd e) (snd e')) conds conds' ->
  PyDict.lookup k conds' = Some c' ->
  exists c, PyDict.lookup k conds = Some c /\ drift_post c c'.
Proof.
  induction 1 as [|[k0 c0] [k1 c1] conds conds' [Hk Hd] _ IH]; cbn;
    [discriminate|].
  cbn in Hk, Hd. subst k1. destruct (String.eqb k k0).
  - intros [= <-]. eauto.
  - exact IH.
Qed.

Lemma drift_loop_keys conds conds' :
  Forall2 (fun e e' : string * Condition =>
             fst e' = fst e /\ drift_post (snd e) (snd e')) conds conds' ->
  PyDict.keys conds' = PyDict.keys conds.
Proof.
  induction 1 as [|[k0 c0] [k1 c1] conds conds' [Hk Hd] _ IH]; cbn;
    [reflexivity|].
  cbn in Hk. unfold PyDict.keys in IH. now rewrite Hk, IH.
Qed.

Lemma documented_relaxed c : documented c -> relaxed c.
Proof. unfold documented, relaxed. intros (?&?&?&?&?&?&?&?). repeat split; lra. Qed.

Lemma documented_resolve r c : documented c -> documented (resolve_effects r c).
Proof.
  unfold documented, resolve_effects. intros (?&?&?&?&?&?&?&?).
  destruct (disaster_type r); cbn; repeat split; lra.
Qed.

Lemma relaxed_resolve r c : relaxed c -> relaxed (resolve_effects r c).
Proof.
  unfold relaxed, resolve_effects. intros (?&?&?&?&?&?).
  destruct (disaster_type r); cbn; repeat split; lra.
Qed.

Lemma water_resolve r c :
  (0 <= water_level c)%Q -> (0 <= water_level (resolve_effects r c))%Q.
Proof. unfold resolve_effects. destruct (disaster_type r); cbn; lra. Qed.

Lemma Forall_sublist_of {A} (P : A -> Prop) (k l : list A) :
  sublist k l -> Forall P l -> Forall P k.
Proof.
  intros Hs Hl. apply Forall_forall. intros x Hx.
  eapply Forall_forall in Hl; [exact Hl|]. eapply elem_of_sublist; eauto.
Qed.

Lemma env_ok_drift e conds' :
  env_ok e ->
  Forall2 (fun x x' : string * Condition =>
             fst x' = fst x /\ drift_post (snd x) (snd x'))
          (current_conditions e) conds' ->
  env_ok (set_current_conditions conds' e) /\ all_conditions documented conds'.
Proof.
  intros (Hl & Hc & Hd & Hi & Hn & Hm & Hw) Hall.
  assert (Hdoc : all_conditions documented conds').
  { intros k c' Hk.
    destruct (drift_loop_lookup _ _ _ _ Hall Hk) as (c & Hc0 & Hp).
    apply Hw in Hc0. destruct Hp as (?&?&?&?&?&?&?&Hwl&_).
    unfold documented. rewrite Hwl. auto 10. }
  split; [|exact Hdoc].
  unfold env_ok, conditions_cover_locations in *.
  cbn [current_conditions set_current_conditions locations active_disasters
       event_counter].
  rewrite (drift_loop_keys _ _ Hall).
  repeat split; auto.
  intros k c Hk. now destruct (Hdoc k c Hk) as (_&_&_&_&_&_&_&?).
Qed.

Lemma env_ok_spawn R e ev e' :
  env_ok e -> (forall c, R c -> (0 <= water_level c)%Q) ->
  spawn_post R e ev e' -> env_ok e'.
Proof.
  intros (Hl & Hc & Hd & Hi & Hn & Hm & Hw) HR
         (Hcnt & Hloc & Hact & Hid & Hin & Hmag & c' & Hc' & Hconds).
  unfold env_ok, conditions_cover_locations in *.
  rewrite Hcnt, Hloc, Hact, Hconds.
  split; [exact Hl|]. split.
  { rewrite PyDict_keys_set; [exact Hc|]. rewrite Hc. now apply list_elem_of_fmap_2. }
  split; [apply Forall_app; split; [exact Hd|apply Forall_singleton; exact Hin]|].
  split.
  { apply Forall_app; split.
    - eapply Forall_impl; [exact Hi|]. intros d (n & Hn' & Hd'). exists n. split; [lia|done].
    - apply Forall_singleton. exists (event_counter e + 1). split; [lia|done]. }
  split.
  { rewrite map_app. apply NoDup_app. split; [exact Hn|]. split.
    - intros x Hx Hx'. cbn in Hx'. apply list_elem_of_singleton in Hx'. subst x.
      apply list_elem_of_fmap in Hx as (d & Hd' & Hdin).
      eapply Forall_forall in Hi; [|exact Hdin]. destruct Hi as (n & Hn' & Hdn).
      rewrite Hid, Hdn in Hd'. apply format_event_id_inj in Hd'. lia.
    - cbn. apply NoDup_singleton. }
  split; [apply Forall_app; split; [exact Hm|apply Forall_singleton; exact Hmag]|].
  apply all_conditions_set; auto.
Qed.

Lemma env_ok_resolve e rs :
  env_ok e -> sublist rs (active_disasters e) ->
  env_ok (set_active_disasters (remaining rs (active_disasters e))
            (set_current_conditions (apply_resets rs (current_conditions e)) e)).
Proof.
  intros (Hl & Hc & Hd & Hi & Hn & Hm & Hw) Hsub.
  pose proof (remaining_sublist rs (active_disasters e)) as Hrem.
  unfold env_ok, conditions_cover_locations in *.
  cbn [current_conditions set_current_conditions set_active_disasters locations
       active_disasters event_counter].
  rewrite apply_resets_keys.
  split; [exact Hl|]. split; [exact Hc|].
  split; [eapply Forall_sublist_of; eauto|].
  split; [eapply Forall_sublist_of; eauto|].
  split.
  { eapply sublist_NoDup; [exact Hn|]. now apply fmap_sublist. }
  split; [eapply Forall_sublist_of; eauto|].
  apply all_conditions_apply_resets; [|exact Hw].
  intros r c. apply water_resolve.
Qed.

Lemma env_ok_located e : env_ok e -> disasters_located e.
Proof.
  intros (_ & Hc & Hd & _). unfold disasters_located.
  eapply Forall_impl; [exact Hd|]. intros d Hin.
  rewrite Hc. now apply list_elem_of_fmap_2.
Qed.

Lemma wp_update_disasters e (post : unit -> DisasterEnvironment -> Prop) :
  disasters_located e ->
  NoDup (map event_id (active_disasters e)) ->
  (forall rs, sublist rs (active_disasters e) ->
     post tt (set_active_disasters (remaining rs (active_disasters e))
                (set_current_conditions
                   (apply_resets rs (current_conditions e)) e))) ->
  wp _update_disasters post e.
Proof.
  intros Hloc Hnd Hp w Hw. eexists _, _, _.
  split; [now apply update_disasters_run|]. split; [exact Hw|].
  apply Hp, resolved_from_sublist.
Qed.

Lemma resolve_tick_post e0 e rs
    (Hcase : (event_counter e = event_counter e0
              /\ all_conditions documented (current_conditions e))
             \/ (event_counter e = event_counter e0 + 1
                 /\ exists loc,
                      loc ∈ locations e0
                      /\ forall k c, k <> name loc ->
                           PyDict.lookup k (current_conditions e) = Some c ->
                           documented c)) :
  env_ok e -> locations e = locations e0 ->
  all_conditions relaxed (current_conditions e) ->
  sublist rs (active_disasters e) ->
  tick_post e0
    (set_active_disasters (remaining rs (active_disasters e))
       (set_current_conditions (apply_resets rs (current_conditions e)) e)).
Proof.
  intros Hok Hloc Hrel Hsub. unfold tick_post.
  split; [now apply env_ok_resolve|].
  cbn [locations event_counter current_conditions set_active_disasters
       set_current_conditions].
  split; [exact Hloc|].
  split; [apply all_conditions_apply_resets; [apply relaxed_resolve|exact Hrel]|].
  destruct Hcase as [[Hcnt Hdoc]|[Hcnt (loc & Hin & Hdoc)]].
  - left. split; [exact Hcnt|].
    apply all_conditions_apply_resets; [apply documented_resolve|exact Hdoc].
  - right. split; [exact Hcnt|]. exists loc. split; [exact Hin|].
    intros k c' Hne Hk.
    assert (Hkin : k ∈ PyDict.keys (current_conditions e)).
    { rewrite <- (apply_resets_keys rs). apply PyDict_lookup_is_Some. eauto. }
    apply PyDict_lookup_is_Some in Hkin as [c Hc].
    destruct (apply_resets_inv documented k rs (current_conditions e) c)
      as (c'' & Hc'' & HP); eauto using documented_resolve.
    congruence.
Qed.

Lemma update_environment_spec e (post : unit -> DisasterEnvironment -> Prop) :
  env_ok e ->
  (forall e', tick_post e e' -> post tt e') ->
  wp update_environment post e.
Proof.
  intros Hok Hp. unfold update_environment.
  apply wp_bind, wp_get. apply wp_bind, drift_loop_spec. intros conds' Hall.
  destruct (env_ok_drift e conds' Hok Hall) as [Hok1 Hdoc1].
  apply wp_bind, wp_modify. set (e1 := set_current_conditions conds' e) in *.
  apply wp_bind, wp_random_random. intros u _ _.
  destruct (Qlt_le_dec u 0.80) as [Hspawn|Hno].
  - apply wp_bind, wp_bind.
    apply (generate_disaster_spec documented relaxed);
      [intros; now apply spawn_effects_spec
      |apply Hok1|apply Hok1|exact Hdoc1|].
    intros ev e2 Hsp.
    assert (Hok2 : env_ok e2).
    { eapply env_ok_spawn; [exact Hok1| |exact Hsp].
      now intros c (_&_&_&_&_&?). }
    destruct Hsp as (Hcnt & Hloc & Hact & Hid & Hin & Hmag & c' & Hc' & Hconds).
    apply wp_ret, wp_update_disasters;
      [now apply env_ok_located|apply Hok2|].
    intros rs Hsub. apply Hp. apply resolve_tick_post; auto.
    + right. split; [exact Hcnt|]. exists (location ev). split; [exact Hin|].
      intros k c Hne. rewrite Hconds, PyDict_lookup_set_ne by congruence.
      apply Hdoc1.
    + rewrite Hconds. apply all_conditions_set; [|exact Hc'].
      intros k c Hk. apply documented_relaxed. eapply Hdoc1; eauto.
  - apply wp_bind, wp_ret, wp_update_disasters;
      [now apply env_ok_located|apply Hok1|].
    intros rs Hsub. apply Hp. apply resolve_tick_post; auto.
    intros k c Hk. apply documented_relaxed. eapply Hdoc1; eauto.
Qed.

(** ** Construction *)

Lemma initial_condition_spec {O} (post : Condition -> O -> Prop) (s : O) :
  (forall c, initial_range c -> post c s) -> wp initial_condition post s.
Proof.
  intros Hp. unfold initial_condition.
  apply wp_bind, wp_random_uniform; [lra|]. intros t ? ?.
  apply wp_bind, wp_random_uniform; [lra|]. intros h ? ?.
  apply wp_bind, wp_random_uniform; [lra|]. intros ws ? ?.
  apply wp_bind, wp_random_uniform; [lra|]. intros aq ? ?.
  apply wp_ret, Hp. unfold initial_range. cbn. auto 12.
Qed.

Lemma initialize_conditions_loop_spec {O} (locs : list Location)
    (conds : PyDict.t Condition) (post : PyDict.t Condition -> O -> Prop) (s : O) :
  (forall cs, length cs = length locs -> Forall initial_range cs ->
              post (store_all locs cs conds) s) ->
  wp (_initialize_conditions_loop locs conds) post s.
Proof.
  revert conds. induction locs as [|loc locs IH]; intros conds Hp;
    cbn [_initialize_conditions_loop].
  - apply wp_ret. apply (Hp []); [reflexivity|constructor].
  - apply wp_bind, initial_condition_spec. intros c Hc.
    apply IH. intros cs Hlen Hall.
    apply (Hp (c :: cs)); [cbn; now rewrite Hlen|now constructor].
Qed.

Lemma init_spec (w : World) :
  unit_draws w ->
  exists e w',
    DisasterEnvironment__init__ w = Some (e, w')
    /\ unit_draws w'
    /\ env_ok e
    /\ all_conditions initial_range (current_conditions e)
    /\ event_counter e = 0
    /\ active_disasters e = []
    /\ locations e = _initialize_locations.
Proof.
  intros Hw. unfold DisasterEnvironment__init__.
  set (self := mkEnv 0 [] _initialize_locations []).
  assert (Hwp : wp _initialize_conditions
                   (fun conds s => s = self
                      /\ exists cs, length cs = 5 /\ Forall initial_range cs
                           /\ conds = store_all _initialize_locations cs []) self).
  { unfold _initialize_conditions. apply wp_bind, wp_get.
    apply initialize_conditions_loop_spec. intros cs Hlen Hall.
    split; [reflexivity|]. exists cs. auto. }
  destruct (Hwp w Hw) as (conds & s' & w' & -> & Hw' & -> & cs & Hlen & Hall & ->).
  exists (set_current_conditions (store_all _initialize_locations cs []) self), w'.
  split; [reflexivity|]. split; [exact Hw'|].
  destruct cs as [|c1 [|c2 [|c3 [|c4 [|c5 [|]]]]]]; try discriminate.
  apply Forall_cons in Hall as [H1 Hall]. apply Forall_cons in Hall as [H2 Hall].
  apply Forall_cons in Hall as [H3 Hall]. apply Forall_cons in Hall as [H4 Hall].
  apply Forall_cons in Hall as [H5 _].
  assert (Hinit : all_conditions initial_range
                    (store_all _initialize_locations [c1; c2; c3; c4; c5] [])).
  { intros k c. cbn.
    repeat (destruct (String.eqb k _); [intros [= <-]; assumption|]).
    discriminate. }
  split; [|split; [exact Hinit|auto]].
  unfold env_ok, conditions_cover_locations. cbn.
  split; [discriminate|]. split; [reflexivity|].
  split; [constructor|]. split; [constructor|]. split; [constructor|].
  split; [constructor|].
  intros k c Hk. destruct (Hinit k c Hk) as (_&_&_&_&_&_&_&_&_&Hwl&_).
  rewrite Hwl. lra.
Qed.

(** ** Reachable environments *)

Lemma unit_draws_const u : (0 <= u)%Q -> (u < 1)%Q -> unit_draws (const_world u).
Proof. intros H0 H1 i. cbn. auto. Qed.

Lemma env_reachable_ok e : env_reachable e -> env_ok e.
Proof.
  induction 1 as [w e w' Hw Hinit|e w e' w' _ IH Hw Htick].
  - destruct (init_spec w Hw) as (e0 & w0 & Heq & _ & Hok & _).
    rewrite Hinit in Heq. now injection Heq as -> ->.
  - destruct (update_environment_spec e (fun _ e' => env_ok e') IH
                (fun e' H => proj1 H) w Hw) as (a & e0 & w0 & Heq & _ & Hok).
    rewrite Htick in Heq. assert (e0 = e') by congruence. now subst.
Qed.

Lemma initial_environment_reachable : env_reachable initial_environment.
Proof.
  apply (env_reachable_init (const_world (1 # 2)) _
           (mkWorld (fun _ => 1 # 2)%Q 20 (fun _ => 0%Z) 0 (fun _ => 0%Z) 0)).
  - apply unit_draws_const; lra.
  - vm_compute. reflexivity.
Qed.

(** ** Rules for total runs *)

Section RunsRules.
Context {O : Type}.

Lemma runs_ret {A} (a : A) (post : A -> O -> Prop) s :
  post a s -> runs (mret a) post s.
Proof. intros Hp w. now exists a, s, w. Qed.

Lemma runs_bind {A B} (m : St O A) (k : A -> St O B) (post : B -> O -> Prop) s :
  runs m (fun a s' => runs (k a) post s') s -> runs (m ≫= k) post s.
Proof.
  intros Hm w. destruct (Hm w) as (a & s1 & w1 & Em & (E1 & E2 & E3 & E4) & Hk).
  destruct (Hk w1) as (b & s2 & w2 & Ek & (F1 & F2 & F3 & F4) & Hp).
  exists b, s2, w2. unfold mbind, St_bind. rewrite Em.
  split; [exact Ek|]. split; [|exact Hp]. repeat split; congruence.
Qed.

Lemma runs_get (post : O -> O -> Prop) s : post s s -> runs get post s.
Proof. intros Hp w. now exists s, s, w. Qed.

Lemma runs_modify (f : O -> O) (post : unit -> O -> Prop) s :
  post tt (f s) -> runs (modify f) post s.
Proof. intros Hp w. now exists tt, (f s), w. Qed.

Lemma runs_datetime_now (post : Time -> O -> Prop) s :
  (forall t, post t s) -> runs datetime_now post s.
Proof. intros Hp w. eexists _, s, _. split; [reflexivity|]. split; [done|auto]. Qed.

Lemma runs_when (c : bool) (body : St O unit) (post : unit -> O -> Prop) s :
  (c = true -> runs body post s) -> (c = false -> post tt s) ->
  runs (when c body) post s.
Proof. destruct c; cbn; intros H1 H2; [auto|apply runs_ret; auto]. Qed.

Lemma runs_mono {A} (m : St O A) (post post' : A -> O -> Prop) s :
  runs m post s -> (forall a s', post a s' -> post' a s') -> runs m post' s.
Proof.
  intros Hm Himp w. destruct (Hm w) as (a & s1 & w1 & Em & Hd & Hp).
  exists a, s1, w1. auto.
Qed.

Lemma runs_for_each {A} (xs : list A) (body : A -> St O unit) (I : O -> Prop) s :
  (forall x s, I s -> runs (body x) (fun _ s' => I s') s) ->
  I s -> runs (for_each xs body) (fun _ s' => I s') s.
Proof.
  intros Hb. revert s. induction xs as [|x xs IH]; intros s Hs; cbn [for_each].
  - now apply runs_ret.
  - apply runs_bind. eapply runs_mono; [apply Hb; exact Hs|].
    intros a s' Hs'. now apply IH.
Qed.

Lemma runs_wp {A} (m : St O A) (post : A -> O -> Prop) s :
  runs m post s -> wp m post s.
Proof.
  intros Hm w Hw. destruct (Hm w) as (a & s1 & w1 & Em & (Hd & _) & Hp).
  exists a, s1, w1. split; [exact Em|]. split; [|exact Hp].
  intros i. unfold unit_draws in Hw. rewrite Hd. apply Hw.
Qed.
End RunsRules.

(** ** The reactive policy, transition by transition *)

Lemma fsm_step_refl self : fsm_step self self [] (state self).
Proof. unfold fsm_step. rewrite app_nil_r. auto 10. Qed.

Lemma fsm_step_trans s0 s1 s2 l1 l2 st1 st2 :
  fsm_step s0 s1 l1 st1 -> fsm_step s1 s2 l2 st2 ->
  fsm_step s0 s2 (l1 ++ l2) st2.
Proof.
  intros (A1 & A2 & A3 & A4 & A5 & A6) (B1 & B2 & B3 & B4 & B5 & B6).
  unfold fsm_step. rewrite B2, A2, app_assoc.
  repeat split; congruence.
Qed.

Lemma runs_log message (post : unit -> GoalReactiveResponseAgent -> Prop) self :
  (forall self', fsm_step self self' [] (state self) -> post tt self') ->
  runs (_log message) post self.
Proof.
  intros Hp. unfold _log, _timestamp.
  apply runs_bind, runs_datetime_now. intros t. apply runs_modify, Hp.
  unfold fsm_step, transition_names. cbn. rewrite app_nil_r. auto 10.
Qed.

Lemma runs_switch_state new_state reason
    (post : unit -> GoalReactiveResponseAgent -> Prop) self :
  (forall self',
     fsm_step self self'
       (if ResponseState_eqb (state self) new_state then []
        else [(state_name (state self), state_name new_state)])
       new_state ->
     post tt self') ->
  runs (_switch_state new_state reason) post self.
Proof.
  intros Hp. unfold _switch_state. apply runs_bind, runs_get.
  destruct (ResponseState_eqb (state self) new_state) eqn:Heq.
  - apply runs_ret, Hp. apply ResponseState_eqb_eq in Heq. subst new_state.
    apply fsm_step_refl.
  - apply runs_bind, runs_modify.
    unfold _timestamp. apply runs_bind, runs_datetime_now. intros t.
    apply runs_bind, runs_modify. apply runs_log. intros self' Hs.
    apply Hp. eapply (fsm_step_trans _ _ _ _ []) in Hs.
    + rewrite app_nil_r in Hs. exact Hs.
    + unfold fsm_step, transition_names. cbn. rewrite map_app. auto 10.
Qed.

Ltac fsm_next Hacc Hnew :=
  let H := fresh "Hacc" in
  pose proof (fsm_step_trans _ _ _ _ _ _ _ Hacc Hnew) as H;
  try rewrite (proj1 Hacc) in H;
  cbn [ResponseState_eqb state_name app] in H;
  clear Hacc Hnew; rename H into Hacc.

Ltac react_step :=
  match goal with
  | Hacc : fsm_step _ ?cur _ _ |- runs (when (ResponseState_eqb (state ?cur) _) _) _ ?cur =>
      rewrite (proj1 Hacc); cbn [ResponseState_eqb when]
  | Hacc : fsm_step _ ?cur _ _ |- runs (when (negb (ResponseState_eqb (state ?cur) _)) _) _ ?cur =>
      rewrite (proj1 Hacc); cbn [ResponseState_eqb when negb]
  | |- runs (mbind _ _) _ _ => apply runs_bind
  | |- runs get _ _ => apply runs_get
  | |- runs (mret _) _ _ => apply runs_ret
  | Hacc : fsm_step _ ?cur _ _ |- runs (_log _) _ ?cur =>
      let s := fresh "s" in let H := fresh "H" in
      apply runs_log; intros s H; fsm_next Hacc H
  | Hacc : fsm_step _ ?cur _ _ |- runs (_switch_state _ _) _ ?cur =>
      let s := fresh "s" in let H := fresh "H" in
      apply runs_switch_state; intros s H; fsm_next Hacc H
  | |- runs (match ?o with Some _ => _ | None => _ end) _ _ => destruct o
  | |- runs (if ?c then _ else _) _ _ => destruct c
  end.

(** Every tick of the policy returns; the transitions it records and the
    state it ends in depend only on the starting state, on whether there are
    events and on whether one of them carries a disaster. *)
Lemma react_runs (self : GoalReactiveResponseAgent) (events : list DerivedEvent) :
  runs (_react events)
       (fun _ self' =>
          fsm_step self self' (react_path (state self) events) (react_final events))
       self.
Proof.
  pose proof (fsm_step_refl self) as Hacc.
  unfold _react, react_path, react_final. destruct events as [|e evs].
  - destruct (state self) eqn:Hst; repeat react_step; exact Hacc.
  - apply runs_bind.
    eapply runs_mono;
      [apply (runs_for_each _ _ (fun s => fsm_step self s [] (state self)));
       [|exact Hacc]|].
    { intros x s Hs. apply runs_log. intros s' Hs'.
      pose proof (fsm_step_trans _ _ _ _ _ _ _ Hs Hs') as H.
      now rewrite (proj1 Hs) in H. }
    clear Hacc. intros a s0 Hacc. cbv beta.
    unfold _prioritize_disaster.
    destruct (event_disasters (e :: evs)) as [|first rest];
      destruct (state self) eqn:Hst; cbn [cascade_from cascade app] in *;
      repeat react_step; exact Hacc.
Qed.

(** C2: evaluation at the failing input.  A tick whose only event is a
    temperature spike takes a fresh agent from MONITORING through ASSESSING
    and DISPATCHING and ends in RECOVERY, not in MONITORING; a second such
    tick changes neither the state nor the history. *)
Lemma react_threshold_only_ends_in_recovery :
  exists s1 w1 s2 w2,
    _react [temp_spike_event] fresh_agent (const_world 0) = Some (tt, s1, w1)
    /\ state fresh_agent = MONITORING
    /\ state s1 = RECOVERY
    /\ transition_names s1 = cascade
    /\ _react [temp_spike_event] s1 w1 = Some (tt, s2, w2)
    /\ state s2 = RECOVERY
    /\ transition_history s2 = transition_history s1.
Proof.
  eexists _, _, _, _. split; [vm_compute; reflexivity|].
  split; [reflexivity|]. split; [reflexivity|]. split; [reflexivity|].
  split; [vm_compute; reflexivity|]. split; reflexivity.
Qed.



(** ** Condition ranges after a tick *)




(** ** Magnitudes of spawned disasters *)

Lemma env_reachable_magnitudes e :
  env_reachable e -> Forall magnitudes_ok (active_disasters e).
Proof. intros Hr. now destruct (env_reachable_ok e Hr) as (_&_&_&_&_&?&_). Qed.

(** C8: a spawn on an environment with registered locations completes and
    the disaster it appends to the catalog has casualties in
    [0, 50 * severity ordinal], infrastructure damage in
    [5 * severity ordinal, 20 * severity ordinal], affected area in
    [0.5, 50] and positive resource quantities medical_kits in [10,100],
    food_packages in [50,500], water_bottles in [100,1000] and rescue_teams
    in [2,20]; every disaster in the catalog of a reachable environment
    satisfies these bounds. *)
Theorem spawned_magnitudes_bounded :
  (forall e w,
     unit_draws w -> locations e <> [] -> conditions_cover_locations e ->
     exists ev e' w',
       _generate_disaster e w = Some (ev, e', w')
       /\ magnitudes_ok ev
       /\ active_disasters e' = active_disasters e ++ [ev]
       /\ event_id ev = format_event_id (event_counter e + 1))
  /\ (forall e, env_reachable e -> Forall magnitudes_ok (active_disasters e)).
Proof.
  split; [|exact env_reachable_magnitudes].
  intros e w Hw Hloc Hcover.
  destruct (generate_disaster_spec (fun _ => True) (fun _ => True) e
              (fun ev e' => spawn_post (fun _ => True) e ev e')) with (w := w)
    as (ev & e' & w' & Hrun & _ & Hpost); auto.
  - intros ty c post s _ Hp. apply spawn_effects_total. auto.
  - destruct Hpost as (_ & _ & Hact & Hid & _ & Hmag & _).
    exists ev, e', w'. auto.
Qed.

Lemma spawned_magnitudes_bounded_witness :
  unit_draws (const_world (1 # 2))
  /\ locations storm_environment <> []
  /\ conditions_cover_locations storm_environment
  /\ env_reachable initial_environment
  /\ (exists ev e' w',
        _generate_disaster storm_environment (const_world (1 # 2))
        = Some (ev, e', w')
        /\ magnitudes_ok ev)
  /\ Forall magnitudes_ok (active_disasters initial_environment).
Proof.
  assert (Hw : unit_draws (const_world (1 # 2))).
  { intros i. cbn. split; now compute. }
  assert (Hl : locations storm_environment <> []) by discriminate.
  assert (Hc : conditions_cover_locations storm_environment) by reflexivity.
  split; [exact Hw|]. split; [exact Hl|]. split; [exact Hc|].
  split; [exact initial_environment_reachable|]. split.
  - destruct (proj1 spawned_magnitudes_bounded storm_environment
                (const_world (1 # 2)) Hw Hl Hc)
      as (ev & e' & w' & Hrun & Hmag & _).
    exists ev, e', w'. auto.
  - exact (proj2 spawned_magnitudes_bounded initial_environment
             initial_environment_reachable).
Defined.

(** ** Totality of the tick loop *)

Lemma wp_zoom {O T A} (proj : O -> T) (upd : T -> O -> O) (m : St T A)
    (post : A -> O -> Prop) s :
  wp m (fun a t' => post a (upd t' s)) (proj s) -> wp (zoom proj upd m) post s.
Proof.
  intros Hm w Hw. destruct (Hm w Hw) as (a & t' & w' & Em & Hw' & Hp).
  exists a, (upd t' s), w'. unfold zoom. rewrite Em. auto.
Qed.

Lemma wp_for_each {O A} (xs : list A) (body : A -> St O unit) (I : O -> Prop) s :
  (forall x s, I s -> wp (body x) (fun _ s' => I s') s) ->
  I s -> wp (for_each xs body) (fun _ s' => I s') s.
Proof.
  intros Hb. revert s. induction xs as [|x xs IH]; intros s Hs; cbn [for_each].
  - now apply wp_ret.
  - apply wp_bind. eapply wp_mono; [apply Hb; exact Hs|].
    intros a s' Hs'. now apply IH.
Qed.

Lemma runs_sense (loc : Location) (e : DisasterEnvironment)
    (post : EnvironmentPercept -> DisasterEnvironment -> Prop) :
  name loc ∈ PyDict.keys (current_conditions e) ->
  (forall p, p_location p = loc -> post p e) ->
  runs (sense loc) post e.
Proof.
  intros Hk Hp w. apply PyDict_lookup_is_Some in Hk as [c Hc].
  eexists _, _, _. split; [apply (sense_run loc e w c Hc)|].
  split; [done|]. now apply Hp.
Qed.

Lemma runs_map_sense (locs : list Location) (e : DisasterEnvironment)
    (post : list EnvironmentPercept -> DisasterEnvironment -> Prop) :
  Forall (fun loc => name loc ∈ PyDict.keys (current_conditions e)) locs ->
  (forall ps, map p_location ps = locs -> post ps e) ->
  runs (map_st sense locs) post e.
Proof.
  revert post. induction locs as [|loc locs IH]; intros post Hall Hp; cbn [map_st].
  - apply runs_ret. now apply (Hp []).
  - apply Forall_cons in Hall as [Hloc Hall].
    apply runs_bind, runs_sense; [exact Hloc|]. intros p Hpl.
    apply runs_bind, IH; [exact Hall|]. intros ps Hps.
    apply runs_ret, (Hp (p :: ps)). cbn. now rewrite Hpl, Hps.
Qed.

(** [get_all_percepts] returns one percept per registered location, in
    registry order, and leaves the environment as it is. *)
Lemma runs_get_all_percepts (e : DisasterEnvironment)
    (post : list EnvironmentPercept -> DisasterEnvironment -> Prop) :
  conditions_cover_locations e ->
  (forall ps, map p_location ps = locations e -> post ps e) ->
  runs get_all_percepts post e.
Proof.
  intros Hc Hp. unfold get_all_percepts. apply runs_bind, runs_get.
  apply runs_map_sense; [|exact Hp].
  apply Forall_forall. intros loc Hin. rewrite Hc. now apply list_elem_of_fmap_2.
Qed.

Lemma runs_derive_events (ps : list EnvironmentPercept)
    (post : list DerivedEvent -> GoalReactiveResponseAgent -> Prop) self :
  post (ordered_events ps (last_handled_event_ids self))
       (set_last_handled_event_ids
          (last_handled_event_ids self ∪ percept_ids ps) self) ->
  runs (_derive_events ps) post self.
Proof.
  intros Hp w. eexists _, _, w. split; [apply derive_events_order|]. auto.
Qed.

Lemma wp_run_cycle (cycle cycles interval_seconds : Z) self :
  env_ok (environment self) ->
  wp (run_cycle cycle cycles interval_seconds)
     (fun _ self' => env_ok (environment self')) self.
Proof.
  intros Hok. unfold run_cycle, asyncio_sleep.
  apply wp_bind, runs_wp, runs_log. intros s1 H1.
  assert (Hok1 : env_ok (environment s1)).
  { destruct H1 as (_ & _ & _ & He & _). now rewrite He. }
  apply wp_bind, wp_zoom, update_environment_spec; [exact Hok1|].
  intros e2 (Hok2 & _). cbv beta.
  apply wp_bind, wp_zoom, runs_wp, runs_get_all_percepts; [apply Hok2|].
  intros ps _. cbn [environment set_environment].
  apply wp_bind, runs_wp, runs_derive_events.
  apply wp_bind, runs_wp. eapply runs_mono; [apply react_runs|].
  intros a s3 (_ & _ & _ & He & _). apply runs_wp, runs_ret.
  rewrite He. exact Hok2.
Qed.

Lemma wp_run (cycles interval_seconds : Z) self :
  env_ok (environment self) ->
  wp (run cycles interval_seconds)
     (fun _ self' => env_ok (environment self')) self.
Proof.
  intros Hok. unfold run, _save_trace.
  apply wp_bind, runs_wp, runs_log. intros s1 H1.
  apply wp_bind, wp_get.
  apply wp_bind, runs_wp, runs_log. intros s2 H2.
  assert (Hok2 : env_ok (environment s2)).
  { destruct H1 as (_ & _ & _ & He1 & _). destruct H2 as (_ & _ & _ & He2 & _).
    now rewrite He2, He1. }
  apply wp_bind. eapply wp_mono;
    [apply (wp_for_each _ _ (fun s => env_ok (environment s))); [|exact Hok2]|].
  { intros x s Hs. now apply wp_run_cycle. }
  intros a s3 Hok3. cbv beta.
  apply wp_bind, runs_wp, runs_log. intros s4 H4.
  apply wp_bind, wp_bind, wp_datetime_now. intros t. apply wp_ret.
  apply runs_wp, runs_log. intros s5 H5.
  destruct H4 as (_ & _ & _ & He4 & _). destruct H5 as (_ & _ & _ & He5 & _).
  now rewrite He5, He4.
Qed.

(** ** Construction and configuration *)




(** * Further properties of the code *)



(** X3: in every reachable environment the active disasters have pairwise
    distinct ids, each formatted from a counter value not above the event
    counter, each disaster sits at a registered location, and every
    registered location has a condition record. *)
Theorem env_reachable_invariant (e : DisasterEnvironment) :
  env_reachable e ->
  NoDup (map event_id (active_disasters e))
  /\ Forall (fun d => exists n, n <= event_counter e
                                /\ event_id d = format_event_id n)
            (active_disasters e)
  /\ Forall (fun d => location d ∈ locations e) (active_disasters e)
  /\ (forall loc, loc ∈ locations e ->
        is_Some (PyDict.lookup (name loc) (current_conditions e))).
Proof.
  intros Hr. destruct (env_reachable_ok e Hr) as (_ & Hc & Hd & Hi & Hn & _).
  split; [exact Hn|]. split; [exact Hi|]. split; [exact Hd|].
  intros loc Hin. apply PyDict_lookup_is_Some. rewrite Hc.
  now apply list_elem_of_fmap_2.
Qed.

Lemma fire_tick_environment_reachable : env_reachable fire_tick_environment.
Proof.
  assert (Hw : unit_draws (sampled_world (1 # 2) 2)).
  { intros i. cbn. split; now compute. }
  destruct (init_spec _ Hw) as (e & w1 & Hinit & Hw1 & _).
  pose proof (env_reachable_init _ _ _ Hw Hinit) as Hr.
  destruct (update_environment_spec e (fun _ _ => True) (env_reachable_ok e Hr)
              (fun _ _ => I) w1 Hw1) as ([] & e' & w2 & Htick & _ & _).
  replace fire_tick_environment with e';
    [exact (env_reachable_tick e w1 e' w2 Hr Hw1 Htick)|].
  unfold fire_tick_environment, fire_tick. rewrite Hinit, Htick. reflexivity.
Qed.

Lemma env_reachable_invariant_witness :
  env_reachable fire_tick_environment
  /\ map event_id (active_disasters fire_tick_environment) = ["D0001"]
  /\ NoDup (map event_id (active_disasters fire_tick_environment)).
Proof.
  split; [exact fire_tick_environment_reachable|]. split; [reflexivity|].
  exact (proj1 (env_reachable_invariant fire_tick_environment
                  fire_tick_environment_reachable)).
Defined.

(** X4: on an environment whose registered locations all have conditions,
    [get_all_percepts] returns one percept per registered location, in
    registry order, each listing exactly the active disasters at its
    location; the environment is unchanged and no random draw is used. *)
Theorem get_all_percepts_in_registry_order (e : DisasterEnvironment) (w : World) :
  conditions_cover_locations e ->
  exists ps w',
    get_all_percepts e w = Some (ps, e, w')
    /\ map p_location ps = locations e
    /\ rng_pos w' = rng_pos w /\ smp_pos w' = smp_pos w.
Proof.
  intros Hc.
  destruct (runs_get_all_percepts e
              (fun ps e' => e' = e /\ map p_location ps = locations e) Hc
              (fun ps H => conj eq_refl H) w)
    as (ps & e' & w' & Hrun & (_ & Hr & _ & Hs) & -> & Hps).
  exists ps, w'. auto.
Qed.

Lemma get_all_percepts_in_registry_order_witness :
  conditions_cover_locations initial_environment
  /\ exists ps w',
       get_all_percepts initial_environment (const_world 0)
       = Some (ps, initial_environment, w')
       /\ map (fun p => name (p_location p)) ps
          = ["Accra"; "Kumasi"; "Tema"; "Tamale"; "Cape Coast"].
Proof.
  assert (Hc : conditions_cover_locations initial_environment) by reflexivity.
  split; [exact Hc|].
  destruct (get_all_percepts_in_registry_order initial_environment
              (const_world 0) Hc) as (ps & w' & Hrun & Hps & _).
  exists ps, w'. split; [exact Hrun|].
  rewrite <- (map_map p_location name), Hps. reflexivity.
Defined.

(** X5: [sense] on a location whose name has no condition record fails
    (the [KeyError] of the dictionary access), whatever the world. *)
Theorem sense_unregistered_fails (e : DisasterEnvironment) (loc : Location)
    (w : World) :
  name loc ∉ PyDict.keys (current_conditions e) -> sense loc e w = None.
Proof.
  intros Hk. unfold sense, mbind, St_bind, get.
  destruct (PyDict.lookup (name loc) (current_conditions e)) as [c|] eqn:E;
    [|reflexivity].
  exfalso. apply Hk, PyDict_lookup_is_Some. eauto.
Qed.

Lemma sense_unregistered_fails_witness :
  (name Wa ∉ PyDict.keys (current_conditions initial_environment))
  /\ sense Wa initial_environment (const_world 0) = None.
Proof.
  assert (Hk : name Wa ∉ PyDict.keys (current_conditions initial_environment)).
  { intros H. vm_compute in H. repeat (apply elem_of_cons in H as [H|H];
      [discriminate|]). now apply elem_of_nil in H. }
  split; [exact Hk|]. exact (sense_unregistered_fails _ _ _ Hk).
Defined.

(** X6: under a well-formed random source the construction of the
    environment succeeds and gives event counter 0, an empty catalog, the
    five registered locations, one condition record per location in registry
    order, and every record within the initial ranges (temperature in
    [25,35], humidity in [60,90], wind speed in [0,30], air quality in
    [50,150], no seismic activity, no water, no smoke). *)
Theorem construction_initial_state (w : World) :
  unit_draws w ->
  exists e w',
    DisasterEnvironment__init__ w = Some (e, w')
    /\ event_counter e = 0
    /\ active_disasters e = []
    /\ map name (locations e) = ["Accra"; "Kumasi"; "Tema"; "Tamale"; "Cape Coast"]
    /\ PyDict.keys (current_conditions e) = map name (locations e)
    /\ all_conditions initial_range (current_conditions e).
Proof.
  intros Hw.
  destruct (init_spec w Hw) as (e & w' & Hinit & _ & Hok & Hrange & Hc & Ha & Hl).
  exists e, w'. split; [exact Hinit|]. split; [exact Hc|]. split; [exact Ha|].
  split; [rewrite Hl; reflexivity|]. split; [apply Hok|exact Hrange].
Qed.

Lemma construction_initial_state_witness :
  unit_draws (const_world (1 # 2))
  /\ exists e w',
       DisasterEnvironment__init__ (const_world (1 # 2)) = Some (e, w')
       /\ event_counter e = 0
       /\ all_conditions initial_range (current_conditions e).
Proof.
  assert (Hw : unit_draws (const_world (1 # 2))).
  { intros i. cbn. split; now compute. }
  split; [exact Hw|].
  destruct (construction_initial_state (const_world (1 # 2)) Hw)
    as (e & w' & Hinit & Hc & _ & _ & _ & Hr).
  exists e, w'. split; [exact Hinit|]. split; [exact Hc|exact Hr].
Defined.

(** X7: distinct values of the event counter are formatted to distinct
    event ids, also beyond the four padded digits. *)
Theorem distinct_counters_distinct_ids (n m : nat) :
  n <> m -> format_event_id n <> format_event_id m.
Proof. intros Hne Heq. now apply Hne, format_event_id_inj. Qed.

Lemma distinct_counters_distinct_ids_witness :
  7 <> 70
  /\ format_event_id 7 = "D0007"
  /\ format_event_id 70 = "D0070"
  /\ format_event_id 7 <> format_event_id 70.
Proof.
  assert (H : 7 <> 70) by lia.
  split; [exact H|]. split; [reflexivity|]. split; [reflexivity|].
  exact (distinct_counters_distinct_ids 7 70 H).
Defined.

(** ** The ungated rules of the event deriver *)

Lemma elem_of_disaster_events_ungated loc d seen ev :
  is_detected ev = false ->
  ev ∈ disaster_events loc d seen <->
  ((ev = escalation_event loc d /\ (4 <= severity_value (severity d))%Z)
   \/ (ev = shortage_event loc d /\ (12 <= resource "rescue_teams" d)%Z)).
Proof.
  intros Hnd. unfold disaster_events. rewrite !elem_of_app.
  assert (Hdet : ~ ev ∈ (if bool_decide (event_id d ∈ seen) then []
                         else [detected_event loc d])).
  { case_bool_decide as Hseen; [apply not_elem_of_nil|].
    intros Hx. apply list_elem_of_singleton in Hx. subst ev. discriminate. }
  destruct (Z.leb_spec 4 (severity_value (severity d)));
    destruct (Z.leb_spec 12 (resource "rescue_teams" d));
    rewrite ?list_elem_of_singleton, ?elem_of_nil; split;
    intros H'; try tauto;
    destruct H' as [[He' Hs']|[He' Hs']]; try lia; tauto.
Qed.

Lemma elem_of_disasters_events_ungated loc ds seen ev :
  is_detected ev = false ->
  ev ∈ disasters_events loc ds seen <->
  exists d, d ∈ ds
    /\ ((ev = escalation_event loc d /\ (4 <= severity_value (severity d))%Z)
        \/ (ev = shortage_event loc d /\ (12 <= resource "rescue_teams" d)%Z)).
Proof.
  intros Hnd. revert seen. induction ds as [|d ds IH]; intros seen;
    cbn [disasters_events].
  - split; [intros H; now apply elem_of_nil in H|].
    intros (d & Hd & _). now apply elem_of_nil in Hd.
  - rewrite elem_of_app, IH, (elem_of_disaster_events_ungated _ _ _ _ Hnd).
    split.
    + intros [H|(d' & Hd' & H)]; [exists d; split; [left|exact H]|].
      exists d'. split; [now right|exact H].
    + intros (d' & Hd' & H). apply elem_of_cons in Hd' as [->|Hd'];
        [now left|right; eauto].
Qed.

Lemma elem_of_ordered_events_ungated ps seen ev :
  is_detected ev = false ->
  ev ∈ ordered_events ps seen <-> exists p, p ∈ ps /\ owed_by p ev.
Proof.
  intros Hnd. revert seen. induction ps as [|p ps IH]; intros seen;
    cbn [ordered_events].
  - split; [intros H; now apply elem_of_nil in H|].
    intros (p & Hp & _). now apply elem_of_nil in Hp.
  - unfold percept_events.
    rewrite !elem_of_app, IH, (elem_of_disasters_events_ungated _ _ _ _ Hnd).
    unfold owed_by. split.
    + intros [[H|H]|(p' & Hp' & H)].
      * exists p. split; [left|now left].
      * exists p. split; [left|now right].
      * exists p'. split; [now right|exact H].
    + intros (p' & Hp' & H). apply elem_of_cons in Hp' as [->|Hp'];
        [left; destruct H; auto|right; eauto].
Qed.

(** X8: an event other than DISASTER_DETECTED is derived exactly when one
    of the given percepts owes it: TEMP_SPIKE for a temperature of at least
    42, WATER_RISE for a water level of at least 1.5, SEVERITY_ESCALATION
    for an active disaster of severity CRITICAL or above, RESOURCE_SHORTAGE
    for an active disaster needing at least 12 rescue teams; the seen-set
    plays no part. *)
Theorem ungated_events_derived (ps : list EnvironmentPercept)
    (self : GoalReactiveResponseAgent) (w : World) (ev : DerivedEvent) :
  is_detected ev = false ->
  exists evs self',
    _derive_events ps self w = Some (evs, self', w)
    /\ (ev ∈ evs <-> exists p, p ∈ ps /\ owed_by p ev).
Proof.
  intros Hnd. eexists _, _. split; [apply derive_events_order|].
  now apply elem_of_ordered_events_ungated.
Qed.

Lemma ungated_events_derived_witness :
  let d12 := sample_disaster 1 FLOOD LOW 5 10 12 in
  let d11 := sample_disaster 2 FLOOD LOW 5 10 11 in
  is_detected (shortage_event "Accra" d12) = false
  /\ exists evs self',
       _derive_events [quiet_percept [d12; d11]] fresh_agent (const_world 0)
       = Some (evs, self', const_world 0)
       /\ shortage_event "Accra" d12 ∈ evs
       /\ map ev_type evs
          = ["DISASTER_DETECTED"; "RESOURCE_SHORTAGE"; "DISASTER_DETECTED"].
Proof.
  intros d12 d11. split; [reflexivity|].
  destruct (ungated_events_derived [quiet_percept [d12; d11]] fresh_agent
              (const_world 0) (shortage_event "Accra" d12) eq_refl)
    as (evs & self' & Hrun & Hiff).
  exists evs, self'. split; [exact Hrun|]. split.
  - apply Hiff. exists (quiet_percept [d12; d11]). split; [left|].
    right. exists d12. split; [left|]. right. split; [reflexivity|].
    vm_compute. discriminate.
  - rewrite derive_events_order in Hrun. injection Hrun as <- _.
    vm_compute. reflexivity.
Defined.

